(** * cnomlite: a shallow embedding of the parser-combinator core

    The development follows [src/cnomlite.hpp].  A C++ [Parser<T>] wraps a
    [std::function<ParseResult<T>(const std::string&)>]; every lambda of the
    header captures by value, is not [mutable], and only writes to locals, so
    a parser is embedded as a function of its input.  The loops of [many] and
    [sep_by] are [while (true)] loops that need not terminate, hence a parser
    also receives a loop budget: [None] means that some loop was still running
    when its budget was used up, and says nothing else about the run. *)

From Stdlib Require Import String Ascii List ZArith Lia Bool Arith DecimalString.
Import ListNotations.

Set Implicit Arguments.

Module cnomlite.

Open Scope string_scope.

(** ** std::string operations used by the header *)

(** [s.empty()] *)
Definition empty (s : string) : bool :=
  match s with
  | EmptyString => true
  | String _ _ => false
  end.

(** [s.substr(pos, count)], for [pos <= s.size()] (the header never calls it
    otherwise): the characters from [pos], at most [count] of them. *)
Definition substr (s : string) (pos count : nat) : string :=
  String.substring pos count s.

(** [s.substr(pos)]: everything from [pos] to the end. *)
Definition substr_from (s : string) (pos : nat) : string :=
  String.substring pos (String.length s - pos) s.

(** [std::string(1, c)] *)
Definition string1 (c : ascii) : string := String c EmptyString.

(** The double quote character, for the messages of [string_p]. *)
Definition dquote : string := string1 (ascii_of_nat 34).

(** [std::isdigit] and [std::isspace] on an [unsigned char], in the default
    "C" locale. *)
Definition isdigit (c : ascii) : bool :=
  (48 <=? nat_of_ascii c)%nat && (nat_of_ascii c <=? 57)%nat.

Definition isspace (c : ascii) : bool :=
  (nat_of_ascii c =? 32)%nat
  || ((9 <=? nat_of_ascii c)%nat && (nat_of_ascii c <=? 13)%nat).

(** ** ParseResult and ParseSuccess *)

Record ParseSuccess (T : Type) : Type := mkSuccess {
  value : T;
  remaining : string
}.

(** [std::variant<ParseSuccess<T>, std::string>] *)
Inductive ParseResult (T : Type) : Type :=
| Success (ps : ParseSuccess T)
| Failure (message : string).

Arguments Failure {T} message.

(** ** Parser definition *)

Definition Parser (T : Type) : Type := nat -> string -> option (ParseResult T).

(** [make_parser] on a lambda that calls no other parser: it returns whatever
    the budget. *)
Definition make_parser {T : Type} (fn : string -> ParseResult T) : Parser T :=
  fun _ input => Some (fn input).

(** Sequencing of runs that may exhaust their budget. *)
Definition run_then {A B : Type} (r : option A) (k : A -> option B) : option B :=
  match r with
  | Some a => k a
  | None => None
  end.

Notation "'run' x <- r ; k" := (run_then r (fun x => k))
  (at level 10, x name, r at level 100, k at level 200).

(** ** Basic parsers *)

Definition any_char : Parser ascii :=
  make_parser (fun input =>
    match input with
    | EmptyString => Failure "Unexpected end of input"
    | String c rest => Success (mkSuccess c rest)
    end).

(** The [found] part shared by the messages of [char_p], [digit] and
    [whitespace_char]: [input.empty() ? "EOF" : std::string(1, input[0])]. *)
Definition found_char (input : string) : string :=
  match input with
  | EmptyString => "EOF"
  | String c _ => string1 c
  end.

Definition char_p (expected : ascii) : Parser ascii :=
  make_parser (fun input =>
    match input with
    | String c rest =>
        if Ascii.eqb c expected
        then Success (mkSuccess expected rest)
        else Failure ("Expected '" ++ string1 expected ++ "', found '"
                        ++ found_char input ++ "'")
    | EmptyString =>
        Failure ("Expected '" ++ string1 expected ++ "', found '"
                   ++ found_char input ++ "'")
    end).

Definition string_p (expected : string) : Parser string :=
  make_parser (fun input =>
    if (String.length expected <=? String.length input)%nat
       && String.eqb (substr input 0 (String.length expected)) expected
    then Success (mkSuccess expected (substr_from input (String.length expected)))
    else
      let found :=
        if (String.length expected <=? String.length input)%nat
        then substr input 0 (String.length expected)
        else input in
      Failure ("Expected " ++ dquote ++ expected ++ dquote ++ ", found "
                 ++ dquote ++ found ++ dquote)).

Definition digit : Parser ascii :=
  make_parser (fun input =>
    match input with
    | String c rest =>
        if isdigit c
        then Success (mkSuccess c rest)
        else Failure ("Expected digit, found '" ++ found_char input ++ "'")
    | EmptyString =>
        Failure ("Expected digit, found '" ++ found_char input ++ "'")
    end).

Definition whitespace_char : Parser ascii :=
  make_parser (fun input =>
    match input with
    | String c rest =>
        if isspace c
        then Success (mkSuccess c rest)
        else Failure ("Expected whitespace, found '" ++ found_char input ++ "'")
    | EmptyString =>
        Failure ("Expected whitespace, found '" ++ found_char input ++ "'")
    end).

(** ** Combinators *)

Section Combinators.

Variables A B : Type.

(** map: transform the result of a parser *)
Definition map (p : Parser A) (f : A -> B) : Parser B :=
  fun n input =>
    run r <- p n input;
    match r with
    | Success ps => Some (Success (mkSuccess (f (value ps)) (remaining ps)))
    | Failure e => Some (Failure e)
    end.

(** bind: chains parsers, second depends on first result *)
Definition bind (p : Parser A) (f : A -> Parser B) : Parser B :=
  fun n input =>
    run r <- p n input;
    match r with
    | Success ps => let next := f (value ps) in next n (remaining ps)
    | Failure e => Some (Failure e)
    end.

(** sequence: run first, then second *)
Definition sequence (p1 : Parser A) (p2 : Parser B) : Parser (A * B) :=
  fun n input =>
    run r1 <- p1 n input;
    match r1 with
    | Success ps1 =>
        run r2 <- p2 n (remaining ps1);
        match r2 with
        | Success ps2 =>
            Some (Success (mkSuccess (value ps1, value ps2) (remaining ps2)))
        | Failure e => Some (Failure e)
        end
    | Failure e => Some (Failure e)
    end.

(** choice: the [for] loop over [parsers], with the [errors] accumulator; the
    empty list is the code after the loop. *)
Fixpoint choice_loop (parsers : list (Parser A)) (n : nat) (input errors : string)
  : option (ParseResult A) :=
  match parsers with
  | parser :: rest =>
      run r <- parser n input;
      match r with
      | Success ps => Some (Success ps)
      | Failure e => choice_loop rest n input (errors ++ (e ++ " | "))
      end
  | [] =>
      let errors :=
        if negb (empty errors)
        then substr errors 0 (String.length errors - 3)
        else errors in
      Some (Failure (if empty errors then "No alternatives matched" else errors))
  end.

Definition choice (parsers : list (Parser A)) : Parser A :=
  fun n input => choice_loop parsers n input "".

(** many: the [while (true)] loop; [k] bounds the number of iterations. *)
Fixpoint many_loop (p : Parser A) (n k : nat) (results : list A) (remaining0 : string)
  : option (ParseResult (list A)) :=
  match k with
  | O => None
  | S k' =>
      run r <- p n remaining0;
      match r with
      | Success ps => many_loop p n k' (results ++ [value ps])%list (remaining ps)
      | Failure _ => Some (Success (mkSuccess results remaining0))
      end
  end.

Definition many (p : Parser A) : Parser (list A) :=
  fun n input => many_loop p n n [] input.

(** many1: one or more occurrences *)
Definition many1 (p : Parser A) : Parser (list A) :=
  fun n input =>
    run r <- many p n input;
    match r with
    | Success ps =>
        match value ps with
        | [] => Some (Failure "Expected at least one occurrence")
        | _ :: _ => Some r
        end
    | Failure _ => Some r
    end.

(** optional_p: zero or one occurrence *)
Definition optional_p (p : Parser A) : Parser (option A) :=
  fun n input =>
    run r <- p n input;
    match r with
    | Success ps => Some (Success (mkSuccess (Some (value ps)) (remaining ps)))
    | Failure _ => Some (Success (mkSuccess None input))
    end.

(** sep_by: the [while (true)] loop; [k] bounds the number of iterations. *)
Fixpoint sep_by_loop (element : Parser A) (separator : Parser B) (n k : nat)
    (results : list A) (remaining0 : string) : option (ParseResult (list A)) :=
  match k with
  | O => None
  | S k' =>
      run elem_r <- element n remaining0;
      match elem_r with
      | Success ps_elem =>
          run sep_r <- separator n (remaining ps_elem);
          match sep_r with
          | Success ps_sep =>
              sep_by_loop element separator n k'
                (results ++ [value ps_elem])%list (remaining ps_sep)
          | Failure _ =>
              Some (Success (mkSuccess (results ++ [value ps_elem])%list
                                       (remaining ps_elem)))
          end
      | Failure _ => Some (Success (mkSuccess results remaining0))
      end
  end.

Definition sep_by (element : Parser A) (separator : Parser B) : Parser (list A) :=
  fun n input => sep_by_loop element separator n n [] input.

End Combinators.

(** ** Utility and higher-level parsers *)

Definition whitespace : Parser (list ascii) := many whitespace_char.

Definition skip_ws {T : Type} (p : Parser T) : Parser T :=
  bind whitespace (fun _ => p).

(** C++ [int], taken as 32 bits in two's complement.  Signed overflow is
    undefined in the language; the wrap-around below is what the arithmetic
    of the usual targets produces, and it is written out at every step. *)
Definition wrap_int (z : Z) : Z :=
  ((z + 2147483648) mod 4294967296 - 2147483648)%Z.

(** [c - '0'] after promotion to [int] (for the digits the only characters
    that reach it, the signedness of [char] makes no difference). *)
Definition digit_value (c : ascii) : Z :=
  (Z.of_nat (nat_of_ascii c) - 48)%Z.

(** The lambda of [integer_p]: [value = value * 10 + (c - '0')]. *)
Definition digits_to_int (digits : list ascii) : Z :=
  fold_left (fun v c => wrap_int (wrap_int (v * 10) + digit_value c))
            digits 0%Z.

Definition integer_p : Parser Z := map (many1 digit) digits_to_int.

(** ** Vocabulary of the properties *)

(** [r] is what is left of [i] after some prefix has been consumed. *)
Definition is_suffix (r i : string) : Prop := exists pre, i = pre ++ r.

(** Monotonic consumption: a success leaves a suffix of the input. *)
Definition consumes_suffix {T : Type} (p : Parser T) : Prop :=
  forall n i ps, p n i = Some (Success ps) -> is_suffix (remaining ps) i.

(** A run that returned within a budget returns the same with a larger one. *)
Definition budget_mono {T : Type} (p : Parser T) : Prop :=
  forall n m i r, n <= m -> p n i = Some r -> p m i = Some r.

(** The parsers composed from the primitives and the combinators of the
    header; the functions given to [map] and [bind] are functions of the
    model, and those given to [bind] yield composed parsers again.
    [whitespace], [skip_ws] and [integer_p] are compositions of these and
    are shown to belong to the family below. *)
Inductive Built : forall T : Type, Parser T -> Prop :=
| Built_any_char : Built any_char
| Built_char_p (expected : ascii) : Built (char_p expected)
| Built_string_p (expected : string) : Built (string_p expected)
| Built_digit : Built digit
| Built_whitespace_char : Built whitespace_char
| Built_map (A B : Type) (p : Parser A) (f : A -> B) :
    Built p -> Built (map p f)
| Built_bind (A B : Type) (p : Parser A) (f : A -> Parser B) :
    Built p -> (forall a, Built (f a)) -> Built (bind p f)
| Built_sequence (A B : Type) (p1 : Parser A) (p2 : Parser B) :
    Built p1 -> Built p2 -> Built (sequence p1 p2)
| Built_choice (A : Type) (parsers : list (Parser A)) :
    (forall p, In p parsers -> Built p) -> Built (choice parsers)
| Built_many (A : Type) (p : Parser A) : Built p -> Built (many p)
| Built_many1 (A : Type) (p : Parser A) : Built p -> Built (many1 p)
| Built_optional_p (A : Type) (p : Parser A) : Built p -> Built (optional_p p)
| Built_sep_by (A B : Type) (element : Parser A) (separator : Parser B) :
    Built element -> Built separator -> Built (sep_by element separator).

(** [j] rounds of the loop of [many] from the state [(results, rem)]: each
    round is a success of [p]; [None] when [p] does not succeed [j] times. *)
Fixpoint many_rounds {A : Type} (p : Parser A) (n j : nat)
    (results : list A) (rem : string) : option (list A * string) :=
  match j with
  | O => Some (results, rem)
  | S j' =>
      match p n rem with
      | Some (Success ps) =>
          many_rounds p n j' (results ++ [value ps])%list (remaining ps)
      | _ => None
      end
  end.

(** [j] full rounds of the loop of [sep_by]: an element, then a separator. *)
Fixpoint sep_rounds {A B : Type} (element : Parser A) (separator : Parser B)
    (n j : nat) (results : list A) (rem : string) : option (list A * string) :=
  match j with
  | O => Some (results, rem)
  | S j' =>
      match element n rem with
      | Some (Success ps_elem) =>
          match separator n (remaining ps_elem) with
          | Some (Success ps_sep) =>
              sep_rounds element separator n j'
                (results ++ [value ps_elem])%list (remaining ps_sep)
          | _ => None
          end
      | _ => None
      end
  end.

(** The messages [msgs] joined by [" | "]. *)
Definition joined (msgs : list string) : string := String.concat " | " msgs.

(** What the loop of [choice] has in [errors] once every branch has failed:
    each message followed by [" | "]. *)
Definition collected_errors (msgs : list string) : string :=
  fold_right (fun e acc => (e ++ " | ") ++ acc) "" msgs.

(** The message of [choice] once every branch has failed. *)
Definition choice_message (msgs : list string) : string :=
  if empty (joined msgs) then "No alternatives matched" else joined msgs.

(** A parser made with [make_parser] that fails with [msg] on every input. *)
Definition fail_with (T : Type) (msg : string) : Parser T :=
  make_parser (fun _ => @Failure T msg).

(** The decimal value of a run of digits, in unbounded arithmetic. *)
Definition decimal_value (digits : list ascii) : Z :=
  fold_left (fun v c => (v * 10 + digit_value c)%Z) digits 0%Z.

(** What [value * 10 + (c - '0')] stays within: the range of [int]. *)
Definition INT_MAX : Z := 2147483647.

(** The first character of [s], if any, is not a digit. *)
Definition no_leading_digit (s : string) : bool :=
  match s with
  | EmptyString => true
  | String c _ => negb (isdigit c)
  end.

(** The separator of the example of the header: [skip_ws(char_p(','))]. *)
Definition comma : Parser ascii := skip_ws (char_p ","%char).

(** ** The example of the header (CNOMLITE_EXAMPLE) *)

(** Parser for '+' with optional whitespace around it. *)
Definition plus_p : Parser Z :=
  map (sequence (skip_ws (char_p "+"%char)) (skip_ws integer_p))
      (fun p => snd p).

(** Expression parser: integer + integer -> sum (an [int] addition). *)
Definition expr_p : Parser Z :=
  fun n input =>
    let seq := sequence integer_p plus_p in
    run result <- seq n input;
    match result with
    | Success s =>
        Some (Success (mkSuccess (wrap_int (fst (value s) + snd (value s)))
                                 (remaining s)))
    | Failure e => Some (Failure e)
    end.

(** Comma-separated integers. *)
Definition int_list : Parser (list Z) := sep_by integer_p comma.

(** ** Vocabulary for runs of characters *)

(** The first character of [s], if any, fails [test]. *)
Definition no_leading (test : ascii -> bool) (s : string) : bool :=
  match s with
  | EmptyString => true
  | String c _ => negb (test c)
  end.

(** [p] is a one-character parser for the class [test]: it succeeds exactly
    on a first character that passes [test], returning it and the rest. *)
Definition char_class (p : Parser ascii) (test : ascii -> bool) : Prop :=
  forall n i,
    match i with
    | String c rest =>
        if test c
        then p n i = Some (Success (mkSuccess c rest))
        else exists msg, p n i = Some (Failure msg)
    | EmptyString => exists msg, p n i = Some (Failure msg)
    end.

(** ** main.cpp: the command loop built on the parsers *)

Module cbasic.

(** *** ANSIColor *)

Definition ESC : string := string1 (ascii_of_nat 27).
Definition RESET : string := ESC ++ "[0m".
Definition RED : string := ESC ++ "[31m".
Definition GREEN : string := ESC ++ "[32m".

Definition apply (text color : string) : string := color ++ text ++ RESET.

(** [std::endl], as the character it writes. *)
Definition endl : string := string1 (ascii_of_nat 10).

(** *** The globals the words work on: [data_stack] and what was written to
    [std::cout].  The vector is kept in its own order, [back()] last. *)
Record World : Type := mkWorld {
  data_stack : list Z;
  cout : string
}.

Definition print (text : string) (w : World) : World :=
  mkWorld (data_stack w) (cout w ++ text).

(** [std::function<void()>]: the registered functions act on the globals
    above. *)
Definition Command : Type := World -> World.

(** [std::unordered_map<std::string, std::function<void()>>], through the
    two operations the program uses: [find] and [operator[]] assignment. *)
Definition Environment : Type := string -> option Command.

Definition no_commands : Environment := fun _ => None.

Definition assign (m : Environment) (key : string) (c : Command) : Environment :=
  fun k => if String.eqb k key then Some c else m k.

(** [std::cout << item] for an [int]. *)
Definition to_string (item : Z) : string :=
  NilZero.string_of_int (Z.to_int item).

Definition print_stack : Command :=
  fun w =>
    let w1 := print (apply "Stack: " GREEN) w in
    let w2 := fold_left (fun acc item => print (to_string item ++ " ") acc)
                        (data_stack w) w1 in
    print endl w2.

Definition add : Command :=
  fun w =>
    if (List.length (data_stack w) <? 2)%nat
    then print (apply "Error: ADD requires at least two values on the stack."
                      RED ++ endl) w
    else
      let b := last (data_stack w) 0%Z in
      let s1 := removelast (data_stack w) in
      let a := last s1 0%Z in
      let s2 := removelast s1 in
      mkWorld (s2 ++ [wrap_int (a + b)])%list (cout w).

Definition subtract : Command :=
  fun w =>
    if (List.length (data_stack w) <? 2)%nat
    then print (apply "Error: SUBTRACT requires at least two values on the stack."
                      RED ++ endl) w
    else
      let b := last (data_stack w) 0%Z in
      let s1 := removelast (data_stack w) in
      let a := last s1 0%Z in
      let s2 := removelast s1 in
      mkWorld (s2 ++ [wrap_int (a - b)])%list (cout w).

Definition push (v : Z) (w : World) : World :=
  mkWorld (data_stack w ++ [v])%list (cout w).

Definition execute_word (word : string) (environment : Environment) (w : World)
  : World :=
  match environment word with
  | Some command => command w
  | None =>
      print (apply ("Error: Unknown command '" ++ word ++ "'") RED ++ endl) w
  end.

(** *** [std::stoi] of the standard library, base 10: leading whitespace is
    skipped, an optional sign is read, then as many digits as there are; no
    digit is [std::invalid_argument], a value outside [int] is
    [std::out_of_range]; what follows the digits is ignored. *)

Inductive StoiResult : Type :=
| StoiValue (v : Z)
| InvalidArgument
| OutOfRange.

Fixpoint skip_spaces (s : string) : string :=
  match s with
  | String c rest => if isspace c then skip_spaces rest else s
  | EmptyString => EmptyString
  end.

Fixpoint leading_digits (s : string) : list ascii :=
  match s with
  | String c rest => if isdigit c then c :: leading_digits rest else []
  | EmptyString => []
  end.

Definition INT_MIN : Z := -2147483648.

(** The optional sign: whether it is a minus, and what follows it. *)
Definition read_sign (s : string) : bool * string :=
  match s with
  | String "+"%char rest => (false, rest)
  | String "-"%char rest => (true, rest)
  | _ => (false, s)
  end.

Definition stoi (str : string) : StoiResult :=
  let signed := read_sign (skip_spaces str) in
  match leading_digits (snd signed) with
  | [] => InvalidArgument
  | (_ :: _) as ds =>
      let v := if fst signed then (- decimal_value ds)%Z else decimal_value ds in
      if (INT_MIN <=? v)%Z && (v <=? INT_MAX)%Z then StoiValue v else OutOfRange
  end.

(** How [execute_line] ends: it returns, or [std::stoi] throws
    [std::out_of_range], which nothing catches. *)
Inductive Outcome : Type :=
| Returned (w : World)
| Terminated (w : World).

(** The [for] loop of [execute_line] over the words. *)
Fixpoint execute_words (environment : Environment) (words : list string)
    (w : World) : Outcome :=
  match words with
  | [] => Returned w
  | word :: rest =>
      match stoi word with
      | StoiValue v => execute_words environment rest (push v w)
      | InvalidArgument =>
          execute_words environment rest (execute_word word environment w)
      | OutOfRange => Terminated w
      end
  end.

(** The lambda given to [make_parser] in [execute_line]. *)
Definition non_whitespace_char : Parser ascii :=
  make_parser (fun input =>
    match input with
    | String c rest =>
        if negb (isspace c)
        then Success (mkSuccess c rest)
        else Failure "Expected non-whitespace character."
    | EmptyString => Failure "Expected non-whitespace character."
    end).

Definition word_parser : Parser (list ascii) := many1 non_whitespace_char.

Definition split_parser : Parser (list string) :=
  sep_by (map word_parser string_of_list_ascii) whitespace.

Definition execute_line (line : string) (environment : Environment) (n : nat)
    (w : World) : option Outcome :=
  run result <- split_parser n line;
  match result with
  | Success success => Some (execute_words environment (value success) w)
  | Failure e =>
      Some (Returned (print (apply "Parse error: " RED ++ e ++ endl) w))
  end.

(** *** Registration of the commands *)

(** [::tolower] and [::toupper] in the "C" locale. *)
Definition tolower (c : ascii) : ascii :=
  if (65 <=? nat_of_ascii c)%nat && (nat_of_ascii c <=? 90)%nat
  then ascii_of_nat (nat_of_ascii c + 32)
  else c.

Definition toupper (c : ascii) : ascii :=
  if (97 <=? nat_of_ascii c)%nat && (nat_of_ascii c <=? 122)%nat
  then ascii_of_nat (nat_of_ascii c - 32)
  else c.

(** [std::transform] over the characters of a string. *)
Fixpoint transform (f : ascii -> ascii) (s : string) : string :=
  match s with
  | EmptyString => EmptyString
  | String c rest => String (f c) (transform f rest)
  end.

Definition register_command_case_insensitive (m : Environment) (name : string)
    (command : Command) : Environment :=
  let m1 := assign m name command in
  let lowercase_name := transform tolower name in
  let m2 := assign m1 lowercase_name command in
  let uppercase_name := transform toupper name in
  assign m2 uppercase_name command.

Definition alias (m : Environment) (existing alias_name : string) (w : World)
  : Environment * World :=
  match m existing with
  | Some command => (assign m alias_name command, w)
  | None =>
      (m, print (apply ("Error: Unknown command '" ++ existing ++ "'") RED
                   ++ endl) w)
  end.

(** The initialisation at the start of [main]. *)
Definition initial_environment (w : World) : Environment * World :=
  let m1 := register_command_case_insensitive no_commands "PRINT" print_stack in
  let m2 := register_command_case_insensitive m1 "ADD" add in
  let m3 := register_command_case_insensitive m2 "SUB" subtract in
  let r4 := alias m3 "PRINT" "P" w in
  let r5 := alias (fst r4) "ADD" "+" (snd r4) in
  alias (fst r5) "SUB" "-" (snd r5).

(** A line of words: each word followed by the characters that separate it
    from the next. *)
Fixpoint line_of (tokens : list (list ascii * list ascii)) : string :=
  match tokens with
  | [] => EmptyString
  | (word, gap) :: rest =>
      string_of_list_ascii word ++ string_of_list_ascii gap ++ line_of rest
  end.

(** Words are non-empty runs of non-whitespace characters, gaps are runs of
    whitespace, and only the last gap may be empty. *)
Fixpoint well_spaced (tokens : list (list ascii * list ascii)) : Prop :=
  match tokens with
  | [] => True
  | (word, gap) :: rest =>
      word <> [] /\ Forall (fun c => isspace c = false) word /\
      Forall (fun c => isspace c = true) gap /\
      (rest <> [] -> gap <> []) /\ well_spaced rest
  end.

End cbasic.

(** ** Facts about strings *)

Section StringFacts.

Lemma append_nil_r (s : string) : s ++ "" = s.
Proof. induction s as [|c s IH]; simpl; [reflexivity | now rewrite IH]. Qed.

Lemma append_assoc (a b c : string) : (a ++ b) ++ c = a ++ (b ++ c).
Proof. induction a as [|x a IH]; simpl; [reflexivity | now rewrite IH]. Qed.

Lemma length_append (a b : string) :
  String.length (a ++ b) = String.length a + String.length b.
Proof. induction a as [|x a IH]; simpl; [reflexivity | now rewrite IH]. Qed.

Lemma substring_0_0 (s : string) : String.substring 0 0 s = "".
Proof. destruct s; reflexivity. Qed.

Lemma substring_whole (s : string) : String.substring 0 (String.length s) s = s.
Proof. induction s as [|c s IH]; simpl; [reflexivity | now rewrite IH]. Qed.

Lemma substring_prefix (a b : string) :
  String.substring 0 (String.length a) (a ++ b) = a.
Proof.
  induction a as [|x a IH]; simpl.
  - apply substring_0_0.
  - now rewrite IH.
Qed.

Lemma substring_split (s : string) (k : nat) :
  k <= String.length s ->
  s = String.substring 0 k s ++ String.substring k (String.length s - k) s.
Proof.
  revert k; induction s as [|c s IH]; intros k Hk; simpl in *.
  - destruct k; [reflexivity | lia].
  - destruct k as [|k]; simpl.
    + now rewrite substring_whole.
    + f_equal. apply IH. lia.
Qed.

Lemma empty_true (s : string) : empty s = true <-> s = "".
Proof. destruct s; simpl; split; congruence. Qed.

End StringFacts.

Lemma is_suffix_refl (i : string) : is_suffix i i.
Proof. now exists "". Qed.

Lemma is_suffix_trans (a b c : string) :
  is_suffix a b -> is_suffix b c -> is_suffix a c.
Proof.
  intros [p Hp] [q Hq]. exists (q ++ p). subst. now rewrite append_assoc.
Qed.

Lemma is_suffix_tail (c : ascii) (s : string) : is_suffix s (String c s).
Proof. now exists (string1 c). Qed.

Lemma is_suffix_length (r i : string) :
  is_suffix r i -> String.length r <= String.length i.
Proof. intros [p ->]. rewrite length_append. lia. Qed.

Create HintDb parsers.
#[local] Hint Resolve is_suffix_refl is_suffix_tail : parsers.

(** ** Case analysis on a run *)

Lemma run_then_Some {X Y : Type} (r : option X) (k : X -> option Y) (y : Y) :
  run_then r k = Some y -> exists x, r = Some x /\ k x = Some y.
Proof. destruct r as [x|]; simpl; [eauto | discriminate]. Qed.

Ltac run_inv H :=
  let x := fresh "res" in
  let Hx := fresh "Hres" in
  apply run_then_Some in H; destruct H as (x & Hx & H).

(** ** Monotonic consumption, combinator by combinator *)

Section Consumption.

Variables A B : Type.

Lemma make_parser_consumes (T : Type) (fn : string -> ParseResult T) :
  (forall i ps, fn i = Success ps -> is_suffix (remaining ps) i) ->
  consumes_suffix (make_parser fn).
Proof.
  intros Hfn n i ps H. unfold make_parser in H.
  injection H as H. now apply Hfn.
Qed.

Lemma any_char_consumes : consumes_suffix any_char.
Proof.
  apply make_parser_consumes. intros [|c rest] ps H; [discriminate|].
  injection H as <-. simpl. auto with parsers.
Qed.

Lemma char_p_consumes (expected : ascii) : consumes_suffix (char_p expected).
Proof.
  apply make_parser_consumes. intros [|c rest] ps H; [discriminate|].
  destruct (Ascii.eqb c expected); [|discriminate].
  injection H as <-. simpl. auto with parsers.
Qed.

Lemma digit_consumes : consumes_suffix digit.
Proof.
  apply make_parser_consumes. intros [|c rest] ps H; [discriminate|].
  destruct (isdigit c); [|discriminate].
  injection H as <-. simpl. auto with parsers.
Qed.

Lemma whitespace_char_consumes : consumes_suffix whitespace_char.
Proof.
  apply make_parser_consumes. intros [|c rest] ps H; [discriminate|].
  destruct (isspace c); [|discriminate].
  injection H as <-. simpl. auto with parsers.
Qed.

Lemma string_p_consumes (expected : string) : consumes_suffix (string_p expected).
Proof.
  apply make_parser_consumes. intros i ps H.
  destruct (String.length expected <=? String.length i)%nat eqn:Hlen;
    simpl in H; [|discriminate].
  destruct (String.eqb _ expected); [|discriminate].
  injection H as <-. simpl.
  apply Nat.leb_le in Hlen.
  exists (String.substring 0 (String.length expected) i).
  unfold substr_from. now apply substring_split.
Qed.

Lemma map_consumes (p : Parser A) (f : A -> B) :
  consumes_suffix p -> consumes_suffix (map p f).
Proof.
  intros Hp n i ps H. unfold map in H. run_inv H.
  destruct res as [ps0|e]; [|discriminate].
  injection H as <-. simpl. eapply Hp; eassumption.
Qed.

Lemma bind_consumes (p : Parser A) (f : A -> Parser B) :
  consumes_suffix p -> (forall a, consumes_suffix (f a)) ->
  consumes_suffix (bind p f).
Proof.
  intros Hp Hf n i ps H. unfold bind in H. run_inv H.
  destruct res as [ps0|e]; [|discriminate]. simpl in H.
  eapply is_suffix_trans; [eapply Hf | eapply Hp]; eassumption.
Qed.

Lemma sequence_consumes (p1 : Parser A) (p2 : Parser B) :
  consumes_suffix p1 -> consumes_suffix p2 -> consumes_suffix (sequence p1 p2).
Proof.
  intros H1 H2 n i ps H. unfold sequence in H. run_inv H.
  destruct res as [ps1|e]; [|discriminate]. run_inv H.
  destruct res as [ps2|e]; [|discriminate].
  injection H as <-. simpl.
  eapply is_suffix_trans; [eapply H2 | eapply H1]; eassumption.
Qed.

Lemma choice_loop_consumes (parsers : list (Parser A)) :
  (forall p, In p parsers -> consumes_suffix p) ->
  forall n i errors ps,
    choice_loop parsers n i errors = Some (Success ps) ->
    is_suffix (remaining ps) i.
Proof.
  induction parsers as [|q rest IH]; intros Hall n i errors ps H; simpl in H.
  - discriminate.
  - run_inv H. destruct res as [ps0|e].
    + injection H as <-. eapply (Hall q); [now left | eassumption].
    + eapply IH; [|eassumption]. intros p Hin. apply Hall. now right.
Qed.

Lemma choice_consumes (parsers : list (Parser A)) :
  (forall p, In p parsers -> consumes_suffix p) -> consumes_suffix (choice parsers).
Proof. intros Hall n i ps H. eapply choice_loop_consumes; eassumption. Qed.

Lemma many_loop_consumes (p : Parser A) :
  consumes_suffix p ->
  forall n k results rem ps,
    many_loop p n k results rem = Some (Success ps) ->
    is_suffix (remaining ps) rem.
Proof.
  intros Hp n k. induction k as [|k IH]; intros results rem ps H; simpl in H.
  - discriminate.
  - run_inv H. destruct res as [ps0|e].
    + eapply is_suffix_trans; [eapply IH | eapply Hp]; eassumption.
    + injection H as <-. simpl. auto with parsers.
Qed.

Lemma many_consumes (p : Parser A) : consumes_suffix p -> consumes_suffix (many p).
Proof. intros Hp n i ps H. eapply many_loop_consumes; eassumption. Qed.

Lemma many1_consumes (p : Parser A) : consumes_suffix p -> consumes_suffix (many1 p).
Proof.
  intros Hp n i ps H. unfold many1 in H. run_inv H.
  destruct res as [ps0|e]; [|discriminate].
  destruct (value ps0); [discriminate|].
  injection H as <-. eapply many_consumes; eassumption.
Qed.

Lemma optional_p_consumes (p : Parser A) :
  consumes_suffix p -> consumes_suffix (optional_p p).
Proof.
  intros Hp n i ps H. unfold optional_p in H. run_inv H.
  destruct res as [ps0|e]; injection H as <-; simpl.
  - eapply Hp; eassumption.
  - auto with parsers.
Qed.

Lemma sep_by_loop_consumes (element : Parser A) (separator : Parser B) :
  consumes_suffix element -> consumes_suffix separator ->
  forall n k results rem ps,
    sep_by_loop element separator n k results rem = Some (Success ps) ->
    is_suffix (remaining ps) rem.
Proof.
  intros He Hs n k. induction k as [|k IH]; intros results rem ps H; simpl in H.
  - discriminate.
  - run_inv H. destruct res as [ps_elem|e].
    + run_inv H. destruct res as [ps_sep|e].
      * eapply is_suffix_trans; [eapply IH; eassumption|].
        eapply is_suffix_trans; [eapply Hs | eapply He]; eassumption.
      * injection H as <-. simpl. eapply He; eassumption.
    + injection H as <-. simpl. auto with parsers.
Qed.

Lemma sep_by_consumes (element : Parser A) (separator : Parser B) :
  consumes_suffix element -> consumes_suffix separator ->
  consumes_suffix (sep_by element separator).
Proof. intros He Hs n i ps H. eapply sep_by_loop_consumes; eassumption. Qed.

End Consumption.

(** ** The compositions of the utility layer belong to the family *)

Lemma Built_whitespace : Built whitespace.
Proof. apply Built_many, Built_whitespace_char. Qed.

Lemma Built_skip_ws (T : Type) (p : Parser T) : Built p -> Built (skip_ws p).
Proof. intros Hp. apply Built_bind; [apply Built_whitespace | intros _; exact Hp]. Qed.

Lemma Built_integer_p : Built integer_p.
Proof. apply Built_map, Built_many1, Built_digit. Qed.

Lemma Built_comma : Built comma.
Proof. apply Built_skip_ws, Built_char_p. Qed.

(** C2: every parser composed from the primitives ([any_char], [char_p],
    [string_p], [digit], [whitespace_char]) and the combinators ([map], [bind],
    [sequence], [choice], [many], [many1], [optional_p], [sep_by], and with
    them [skip_ws] and [integer_p]) consumes monotonically: whenever it
    succeeds on an input [i], the remainder it returns is a suffix of [i]. *)
Theorem composed_parsers_consume_suffix (T : Type) (p : Parser T) (n : nat)
    (i : string) (ps : ParseSuccess T) :
  Built p -> p n i = Some (Success ps) -> is_suffix (remaining ps) i.
Proof.
  intros HB. revert n i ps. change (consumes_suffix p).
  induction HB.
  - apply any_char_consumes.
  - apply char_p_consumes.
  - apply string_p_consumes.
  - apply digit_consumes.
  - apply whitespace_char_consumes.
  - now apply map_consumes.
  - now apply bind_consumes.
  - now apply sequence_consumes.
  - now apply choice_consumes.
  - now apply many_consumes.
  - now apply many1_consumes.
  - now apply optional_p_consumes.
  - now apply sep_by_consumes.
Qed.

(** The statement above at [skip_ws (integer_p)] on ["  42abc"]. *)
Lemma composed_parsers_consume_suffix_witness :
  is_suffix "abc" "  42abc".
Proof.
  apply (@composed_parsers_consume_suffix Z (skip_ws integer_p) 3 "  42abc"
           (mkSuccess 42%Z "abc")).
  - apply Built_skip_ws, Built_integer_p.
  - vm_compute. reflexivity.
Defined.

(** ** The result of a run does not depend on the budget *)

Section Budget.

Variables A B : Type.

Lemma make_parser_mono (T : Type) (fn : string -> ParseResult T) :
  budget_mono (make_parser fn).
Proof. intros n m i r _ H. exact H. Qed.

Lemma map_mono (p : Parser A) (f : A -> B) : budget_mono p -> budget_mono (map p f).
Proof.
  intros Hp n m i r Hnm H. unfold map in *. run_inv H.
  now rewrite (Hp _ _ _ _ Hnm Hres).
Qed.

Lemma bind_mono (p : Parser A) (f : A -> Parser B) :
  budget_mono p -> (forall a, budget_mono (f a)) -> budget_mono (bind p f).
Proof.
  intros Hp Hf n m i r Hnm H. unfold bind in *. run_inv H.
  rewrite (Hp _ _ _ _ Hnm Hres). simpl.
  destruct res as [ps|e]; [|exact H].
  simpl in *. now apply (Hf (value ps)) with (n := n).
Qed.

Lemma sequence_mono (p1 : Parser A) (p2 : Parser B) :
  budget_mono p1 -> budget_mono p2 -> budget_mono (sequence p1 p2).
Proof.
  intros H1 H2 n m i r Hnm H. unfold sequence in *. run_inv H.
  rewrite (H1 _ _ _ _ Hnm Hres). simpl.
  destruct res as [ps1|e]; [|exact H].
  run_inv H. now rewrite (H2 _ _ _ _ Hnm Hres0).
Qed.

Lemma choice_loop_mono (parsers : list (Parser A)) :
  (forall p, In p parsers -> budget_mono p) ->
  forall n m i errors r, n <= m ->
    choice_loop parsers n i errors = Some r ->
    choice_loop parsers m i errors = Some r.
Proof.
  induction parsers as [|q rest IH]; intros Hall n m i errors r Hnm H;
    simpl in *.
  - exact H.
  - run_inv H. rewrite (Hall q (or_introl eq_refl) _ _ _ _ Hnm Hres). simpl.
    destruct res as [ps|e]; [exact H|].
    eapply IH; [|eassumption..]. intros p Hin. apply Hall. now right.
Qed.

Lemma choice_mono (parsers : list (Parser A)) :
  (forall p, In p parsers -> budget_mono p) -> budget_mono (choice parsers).
Proof. intros Hall n m i r. now apply choice_loop_mono. Qed.

Lemma many_loop_mono (p : Parser A) :
  budget_mono p ->
  forall n m k k' results rem r, n <= m -> k <= k' ->
    many_loop p n k results rem = Some r ->
    many_loop p m k' results rem = Some r.
Proof.
  intros Hp n m k. induction k as [|k IH]; intros k' results rem r Hnm Hk H;
    simpl in H; [discriminate|].
  destruct k' as [|k']; [lia|]. simpl.
  run_inv H. rewrite (Hp _ _ _ _ Hnm Hres). simpl.
  destruct res as [ps|e]; [|exact H].
  apply IH; [assumption | lia | assumption].
Qed.

Lemma many_mono (p : Parser A) : budget_mono p -> budget_mono (many p).
Proof. intros Hp n m i r Hnm H. now apply many_loop_mono with (n := n) (k := n). Qed.

Lemma many1_mono (p : Parser A) : budget_mono p -> budget_mono (many1 p).
Proof.
  intros Hp n m i r Hnm H. unfold many1 in *. run_inv H.
  now rewrite (many_mono Hp _ Hnm Hres).
Qed.

Lemma optional_p_mono (p : Parser A) : budget_mono p -> budget_mono (optional_p p).
Proof.
  intros Hp n m i r Hnm H. unfold optional_p in *. run_inv H.
  now rewrite (Hp _ _ _ _ Hnm Hres).
Qed.

Lemma sep_by_loop_mono (element : Parser A) (separator : Parser B) :
  budget_mono element -> budget_mono separator ->
  forall n m k k' results rem r, n <= m -> k <= k' ->
    sep_by_loop element separator n k results rem = Some r ->
    sep_by_loop element separator m k' results rem = Some r.
Proof.
  intros He Hs n m k. induction k as [|k IH]; intros k' results rem r Hnm Hk H;
    simpl in H; [discriminate|].
  destruct k' as [|k']; [lia|]. simpl.
  run_inv H. rewrite (He _ _ _ _ Hnm Hres). simpl.
  destruct res as [ps_elem|e]; [|exact H].
  run_inv H. rewrite (Hs _ _ _ _ Hnm Hres0). simpl.
  destruct res as [ps_sep|e]; [|exact H].
  apply IH; [assumption | lia | assumption].
Qed.

Lemma sep_by_mono (element : Parser A) (separator : Parser B) :
  budget_mono element -> budget_mono separator ->
  budget_mono (sep_by element separator).
Proof.
  intros He Hs n m i r Hnm H.
  now apply sep_by_loop_mono with (n := n) (k := n).
Qed.

End Budget.

Lemma Built_budget_mono (T : Type) (p : Parser T) : Built p -> budget_mono p.
Proof.
  induction 1.
  1-5: apply make_parser_mono.
  - now apply map_mono.
  - now apply bind_mono.
  - now apply sequence_mono.
  - now apply choice_mono.
  - now apply many_mono.
  - now apply many1_mono.
  - now apply optional_p_mono.
  - now apply sep_by_mono.
Qed.

(** A result computed within some budget is the result within every budget
    that is at least as large: the form in which the concrete scenarios are
    stated. *)
Lemma Built_from_budget (T : Type) (p : Parser T) (n0 : nat) (i : string)
    (r : ParseResult T) :
  Built p -> p n0 i = Some r -> forall n, n0 <= n -> p n i = Some r.
Proof. intros HB H n Hn. exact (Built_budget_mono HB i Hn H). Qed.

(** The loop budget is an artefact of the embedding and does not show in
    the results of composed parsers: two runs on the same input that both
    return within their budgets return the same result. *)
Lemma Built_budget_independent (T : Type) (p : Parser T) (n m : nat)
    (i : string) (r1 r2 : ParseResult T) :
  Built p -> p n i = Some r1 -> p m i = Some r2 -> r1 = r2.
Proof.
  intros HB H1 H2.
  pose proof (@Built_from_budget _ p n i r1 HB H1 _ (Nat.le_max_l n m)) as E1.
  pose proof (@Built_from_budget _ p m i r2 HB H2 _ (Nat.le_max_r n m)) as E2.
  congruence.
Qed.

(** ** The loop of [many] *)

Section Many.

Variable A : Type.
Variable p : Parser A.

Lemma many_loop_rounds (n j : nat) :
  forall k results rem vs r msg,
    many_rounds p n j results rem = Some (vs, r) ->
    p n r = Some (Failure msg) ->
    j < k ->
    many_loop p n k results rem = Some (Success (mkSuccess vs r)).
Proof.
  induction j as [|j IH]; intros k results rem vs r msg Hr Hfail Hk;
    (destruct k as [|k]; [lia|]); simpl in *.
  - injection Hr as <- <-. now rewrite Hfail.
  - destruct (p n rem) as [[ps|e]|]; try discriminate. simpl.
    eapply IH; [eassumption.. | lia].
Qed.

Lemma many_loop_inv (n k : nat) :
  forall results rem res,
    many_loop p n k results rem = Some res ->
    exists j vs r msg,
      j < k /\ res = Success (mkSuccess vs r) /\
      many_rounds p n j results rem = Some (vs, r) /\
      p n r = Some (Failure msg).
Proof.
  induction k as [|k IH]; intros results rem res H; simpl in H;
    [discriminate|].
  run_inv H. destruct res0 as [ps|e].
  - apply IH in H. destruct H as (j & vs & r & msg & Hj & -> & Hr & Hfail).
    exists (S j), vs, r, msg. simpl. rewrite Hres.
    repeat split; [lia | assumption..].
  - injection H as <-. exists 0, results, rem, e.
    repeat split; [lia | assumption].
Qed.

(** The values collected by [j] rounds are appended, in order, to those
    collected before. *)
Lemma many_rounds_length (n j : nat) :
  forall results rem vs r,
    many_rounds p n j results rem = Some (vs, r) ->
    exists collected, vs = (results ++ collected)%list /\ List.length collected = j.
Proof.
  induction j as [|j IH]; intros results rem vs r H; simpl in H.
  - injection H as <- <-. exists []. now rewrite app_nil_r.
  - destruct (p n rem) as [[ps|e]|]; try discriminate.
    apply IH in H. destruct H as (c & -> & Hlen).
    exists (value ps :: c). rewrite <- app_assoc. simpl. now rewrite Hlen.
Qed.

(** When [p] returns on every input and every success of [p] consumes
    something, the loop ends within [length i + 1] iterations. *)
Lemma many_loop_returns (n : nat) :
  (forall i, p n i <> None) ->
  (forall i ps, p n i = Some (Success ps) ->
                String.length (remaining ps) < String.length i) ->
  forall k results rem,
    String.length rem < k ->
    exists ps, many_loop p n k results rem = Some (Success ps).
Proof.
  intros Htot Hprog. induction k as [|k IH]; intros results rem Hk; [lia|].
  simpl. destruct (p n rem) as [[ps|e]|] eqn:E; simpl.
  - apply IH. specialize (Hprog _ _ E). lia.
  - eauto.
  - now destruct (Htot rem).
Qed.

End Many.

(** A parser that succeeds without consuming keeps the loop of [many]
    running: no budget is enough for [many (string_p "")]. *)
Lemma many_zero_width_runs_on (n : nat) (i : string) :
  many (string_p "") n i = None.
Proof.
  unfold many. generalize (@nil string). generalize n at 2.
  intros k; induction k as [|k IH]; intros results; [reflexivity|].
  simpl. unfold substr, substr_from. rewrite substring_0_0. simpl.
  rewrite Nat.sub_0_r, substring_whole. apply IH.
Qed.

(** C4: [many p] never fails.  It applies [p] to the current remainder again
    and again, collecting the values of the successes in order, until [p]
    fails; it then succeeds with the collected sequence (possibly empty) and
    the remainder at which [p] first failed.  Every result that [many p]
    returns is of this form, and it does return one whenever [p] returns on
    every input and consumes something at each success. *)
Theorem many_never_fails (A : Type) (p : Parser A) (n : nat) (i : string) :
  (forall msg, many p n i <> Some (Failure msg)) /\
  (forall j vs r msg,
      many_rounds p n j [] i = Some (vs, r) ->
      p n r = Some (Failure msg) ->
      j < n ->
      many p n i = Some (Success (mkSuccess vs r)) /\ List.length vs = j) /\
  (forall res,
      many p n i = Some res ->
      exists j vs r msg,
        res = Success (mkSuccess vs r) /\
        many_rounds p n j [] i = Some (vs, r) /\
        p n r = Some (Failure msg)) /\
  ((forall i', p n i' <> None) ->
   (forall i' ps, p n i' = Some (Success ps) ->
                  String.length (remaining ps) < String.length i') ->
   String.length i < n ->
   exists ps, many p n i = Some (Success ps)).
Proof.
  assert (Hinv : forall res,
      many p n i = Some res ->
      exists j vs r msg,
        res = Success (mkSuccess vs r) /\
        many_rounds p n j [] i = Some (vs, r) /\
        p n r = Some (Failure msg)).
  { intros res H. apply many_loop_inv in H.
    destruct H as (j & vs & r & msg & _ & -> & Hr & Hfail).
    exists j, vs, r, msg. auto. }
  split; [|split; [|split]].
  - intros msg H. destruct (Hinv _ H) as (j & vs & r & m & E & _). discriminate.
  - intros j vs r msg Hr Hfail Hj. split.
    + eapply many_loop_rounds; eassumption.
    + apply many_rounds_length in Hr. destruct Hr as (c & -> & Hc). exact Hc.
  - exact Hinv.
  - intros Htot Hprog Hlen. now apply many_loop_returns.
Qed.

(** The statement above at [many digit] on ["12a"]: two rounds, then
    [digit] fails on ["a"]. *)
Lemma many_never_fails_witness :
  many digit 3 "12a" = Some (Success (mkSuccess ["1"%char; "2"%char] "a"))
  /\ List.length ["1"%char; "2"%char] = 2.
Proof.
  apply (proj1 (proj2 (many_never_fails digit 3 "12a")) 2
           ["1"%char; "2"%char] "a" "Expected digit, found 'a'").
  - reflexivity.
  - reflexivity.
  - lia.
Defined.

(** C5: [optional_p p] never fails.  When [p] succeeds with a value and a
    remainder, [optional_p p] succeeds with that value, present, and the same
    remainder; when [p] fails, it succeeds with an absent value and the
    original input, untouched, as the remainder. *)
Theorem optional_p_never_fails (A : Type) (p : Parser A) (n : nat) (i : string) :
  (forall msg, optional_p p n i <> Some (Failure msg)) /\
  (forall ps,
      p n i = Some (Success ps) ->
      optional_p p n i
      = Some (Success (mkSuccess (Some (value ps)) (remaining ps)))) /\
  (forall msg,
      p n i = Some (Failure msg) ->
      optional_p p n i = Some (Success (mkSuccess None i))) /\
  (forall r, p n i = Some r -> exists ps, optional_p p n i = Some (Success ps)).
Proof.
  unfold optional_p. repeat split.
  - intros msg H. run_inv H. destruct res; discriminate.
  - intros ps H. now rewrite H.
  - intros msg H. now rewrite H.
  - intros r H. rewrite H. destruct r; simpl; eauto.
Qed.

(** The statement above at [optional_p digit]: present on ["7x"], absent on
    ["x7"] with the input untouched. *)
Lemma optional_p_never_fails_witness :
  optional_p digit 0 "7x" = Some (Success (mkSuccess (Some "7"%char) "x"))
  /\ optional_p digit 0 "x7" = Some (Success (mkSuccess None "x7")).
Proof.
  split.
  - apply (proj1 (proj2 (optional_p_never_fails digit 0 "7x"))
             (mkSuccess "7"%char "x")).
    reflexivity.
  - apply (proj1 (proj2 (proj2 (optional_p_never_fails digit 0 "x7")))
             "Expected digit, found 'x'").
    reflexivity.
Defined.

(** ** [many1] *)

Lemma many_first_round (A : Type) (p : Parser A) (n : nat) (i : string)
    (ps : ParseSuccess (list A)) :
  many p n i = Some (Success ps) ->
  (value ps = [] <-> exists msg, p n i = Some (Failure msg)).
Proof.
  unfold many. destruct n as [|k]; simpl; [discriminate|].
  intros H. run_inv H. rewrite Hres. destruct res as [ps0|e].
  - apply many_loop_inv in H.
    destruct H as (j & vs & r & msg & _ & E & Hr & _).
    injection E as ->.
    apply many_rounds_length in Hr. destruct Hr as (c & -> & _).
    simpl. split; [discriminate | intros [msg' Hm]; discriminate].
  - injection H as <-. simpl. split; eauto.
Qed.

(** C6: [many1 p] fails with exactly "Expected at least one occurrence" when
    the sequence collected by [many p] is empty, that is when [p] fails at
    once on the input, and otherwise returns the success of [many p]
    unchanged.  [many1 digit] fails so on ["abc"], and where [p] matches
    exactly once [many1 p] succeeds with the one value and the remainder of
    [p]. *)
Theorem many1_at_least_one (A : Type) (p : Parser A) (n : nat) (i : string) :
  (forall ps,
      many p n i = Some (Success ps) ->
      (value ps = [] <-> exists msg, p n i = Some (Failure msg))) /\
  (forall ps,
      many p n i = Some (Success ps) -> value ps = [] ->
      many1 p n i = Some (Failure "Expected at least one occurrence")) /\
  (forall ps,
      many p n i = Some (Success ps) -> value ps <> [] ->
      many1 p n i = Some (Success ps)) /\
  (forall msg,
      p n i = Some (Failure msg) -> 1 <= n ->
      many1 p n i = Some (Failure "Expected at least one occurrence")) /\
  (forall v r msg,
      p n i = Some (Success (mkSuccess v r)) ->
      p n r = Some (Failure msg) -> 2 <= n ->
      many1 p n i = Some (Success (mkSuccess [v] r))) /\
  (forall m, 1 <= m ->
      many1 digit m "abc" = Some (Failure "Expected at least one occurrence")).
Proof.
  split; [|split; [|split; [|split; [|split]]]].
  - intros ps. apply many_first_round.
  - intros ps H Hv. unfold many1. rewrite H. simpl. now rewrite Hv.
  - intros ps H Hv. unfold many1. rewrite H. simpl.
    destruct (value ps); [now destruct Hv | reflexivity].
  - intros msg H Hn. unfold many1, many.
    destruct n as [|k]; [lia|]. simpl. now rewrite H.
  - intros v r msg H1 H2 Hn. unfold many1, many.
    destruct n as [|[|k]]; [lia..|]. simpl. rewrite H1. simpl. now rewrite H2.
  - intros m Hm. destruct m as [|k]; [lia | reflexivity].
Qed.

(** The statement above at [many1 any_char]: ["a"] matches exactly once, and
    the empty input not at all. *)
Lemma many1_at_least_one_witness :
  many1 any_char 2 "a" = Some (Success (mkSuccess ["a"%char] ""))
  /\ many1 any_char 2 "" = Some (Failure "Expected at least one occurrence")
  /\ many1 digit 1 "abc" = Some (Failure "Expected at least one occurrence").
Proof.
  split; [|split].
  - apply (proj1 (proj2 (proj2 (proj2 (proj2
             (many1_at_least_one any_char 2 "a")))))
             "a"%char "" "Unexpected end of input");
      [reflexivity | reflexivity | lia].
  - apply (proj1 (proj2 (proj2 (proj2 (many1_at_least_one any_char 2 ""))))
             "Unexpected end of input"); [reflexivity | lia].
  - apply (proj2 (proj2 (proj2 (proj2 (proj2
             (many1_at_least_one any_char 0 ""))))) 1).
    lia.
Defined.

(** C8: [map p identity] behaves as [p] on every input: the same value and
    remainder on success, the same message on failure (and it returns exactly
    when [p] does). *)
Theorem map_identity (A : Type) (p : Parser A) (n : nat) (i : string) :
  map p (fun a => a) n i = p n i.
Proof.
  unfold map. destruct (p n i) as [[[v r]|e]|]; reflexivity.
Qed.

(** C10: [string_p ""] succeeds on every input, the empty one included, with
    the value [""] and the whole input as the remainder. *)
Theorem string_p_empty_literal (n : nat) (i : string) :
  string_p "" n i = Some (Success (mkSuccess "" i)).
Proof.
  unfold string_p, make_parser, substr, substr_from. simpl.
  rewrite substring_0_0. simpl.
  now rewrite Nat.sub_0_r, substring_whole.
Qed.

(** ** [choice] *)

Section Choice.

Variable A : Type.

Lemma choice_loop_first_success (n : nat) (i : string) :
  forall (before : list (Parser A)) (p : Parser A) (after : list (Parser A))
         (errors : string) (ps : ParseSuccess A),
    (forall q, In q before -> exists msg, q n i = Some (Failure msg)) ->
    p n i = Some (Success ps) ->
    choice_loop (before ++ p :: after) n i errors = Some (Success ps).
Proof.
  induction before as [|q before IH]; intros p after errors ps Hfail Hp; simpl.
  - now rewrite Hp.
  - destruct (Hfail q (or_introl eq_refl)) as [msg Hq]. rewrite Hq. simpl.
    apply IH; [|assumption]. intros q' Hin. apply Hfail. now right.
Qed.

Lemma choice_loop_all_fail (n : nat) (i : string) :
  forall (parsers : list (Parser A)) (msgs : list string) (errors : string),
    Forall2 (fun q msg => q n i = Some (Failure msg)) parsers msgs ->
    choice_loop parsers n i errors
    = choice_loop [] n i (errors ++ collected_errors msgs).
Proof.
  induction parsers as [|q parsers IH]; intros msgs errors Hall;
    inversion Hall as [|? msg ? msgs' Hq Hrest]; subst; simpl.
  - now rewrite append_nil_r.
  - rewrite Hq. simpl. rewrite (IH _ _ Hrest). simpl.
    now rewrite !append_assoc.
Qed.

End Choice.

Lemma collected_errors_joined (msgs : list string) :
  msgs <> [] -> collected_errors msgs = joined msgs ++ " | ".
Proof.
  induction msgs as [|e msgs IH]; intros Hne; [now destruct Hne|].
  destruct msgs as [|e' msgs].
  - simpl. now rewrite append_assoc.
  - change (collected_errors (e :: e' :: msgs))
      with ((e ++ " | ") ++ collected_errors (e' :: msgs)).
    rewrite IH by discriminate.
    change (joined (e :: e' :: msgs)) with (e ++ " | " ++ joined (e' :: msgs)).
    now rewrite !append_assoc.
Qed.

(** Trimming the last three characters of [s ++ " | "] gives back [s]. *)
Lemma trim_separator (s : string) :
  substr (s ++ " | ") 0 (String.length (s ++ " | ") - 3) = s.
Proof.
  unfold substr. rewrite length_append. simpl.
  replace (String.length s + 3 - 3) with (String.length s) by lia.
  apply substring_prefix.
Qed.

Lemma append_separator_not_empty (s : string) : empty (s ++ " | ") = false.
Proof. destruct s; reflexivity. Qed.

(** Two or more messages never join to the empty string; one message joins
    to itself. *)
Lemma joined_empty (msgs : list string) :
  msgs <> [] -> (joined msgs = "" <-> msgs = [""]).
Proof.
  intros Hne. destruct msgs as [|e [|e' msgs]]; [now destruct Hne | |].
  - unfold joined. simpl. split; congruence.
  - change (joined (e :: e' :: msgs)) with (e ++ " | " ++ joined (e' :: msgs)).
    split; [|discriminate]. destruct e; discriminate.
Qed.

(** [choice] never fails with the empty message, whatever its branches. *)
Lemma choice_loop_failure_nonempty (A : Type) (n : nat) (i : string) :
  forall (parsers : list (Parser A)) errors msg,
    choice_loop parsers n i errors = Some (Failure msg) -> msg <> "".
Proof.
  induction parsers as [|q parsers IH]; intros errors msg H; simpl in H.
  - injection H as <-.
    destruct (empty (if negb (empty errors) then _ else errors)) eqn:E.
    + discriminate.
    + intros Hm. rewrite Hm in E. discriminate.
  - run_inv H. destruct res as [ps|e]; [discriminate|]. eapply IH, H.
Qed.

Lemma sep_by_loop_never_fails (A B : Type) (element : Parser A)
    (separator : Parser B) (n k : nat) :
  forall results rem msg,
    sep_by_loop element separator n k results rem <> Some (Failure msg).
Proof.
  induction k as [|k IH]; intros results rem msg H; simpl in H;
    [discriminate|].
  run_inv H. destruct res as [ps_elem|e]; [|discriminate].
  run_inv H. destruct res as [ps_sep|e]; [|discriminate].
  eapply IH, H.
Qed.

(** No parser composed from the primitives and the combinators fails with
    the empty message. *)
Lemma Built_failure_nonempty (T : Type) (p : Parser T) :
  Built p -> forall n i msg, p n i = Some (Failure msg) -> msg <> "".
Proof.
  induction 1 as [ | c | e | | | A B p f _ IHp | A B p f _ IHp _ IHf
                   | A B p1 p2 _ IH1 _ IH2 | A ps _ _ | A p _ _ | A p _ _
                   | A p _ _ | A B el sp _ _ _ _ ]; intros n i msg H.
  - destruct i; [injection H as <- | ]; discriminate.
  - unfold char_p, make_parser in H.
    destruct i as [|c' i]; [|destruct (Ascii.eqb c' c)];
      (discriminate || (injection H as <-; discriminate)).
  - unfold string_p, make_parser in H.
    destruct (_ && _); [discriminate | injection H as <-; discriminate].
  - unfold digit, make_parser in H.
    destruct i as [|c' i]; [|destruct (isdigit c')];
      (discriminate || (injection H as <-; discriminate)).
  - unfold whitespace_char, make_parser in H.
    destruct i as [|c' i]; [|destruct (isspace c')];
      (discriminate || (injection H as <-; discriminate)).
  - unfold map in H. run_inv H. destruct res as [ps|e]; [discriminate|].
    injection H as <-. eapply IHp, Hres.
  - unfold bind in H. run_inv H. destruct res as [ps|e].
    + eapply IHf, H.
    + injection H as <-. eapply IHp, Hres.
  - unfold sequence in H. run_inv H. destruct res as [ps1|e].
    + run_inv H. destruct res as [ps2|e]; [discriminate|].
      injection H as <-. eapply IH2, Hres0.
    + injection H as <-. eapply IH1, Hres.
  - eapply choice_loop_failure_nonempty, H.
  - apply many_loop_inv in H. destruct H as (? & ? & ? & ? & _ & E & _).
    discriminate.
  - unfold many1 in H. run_inv H. destruct res as [ps|e].
    + destruct (value ps); [injection H as <-|]; discriminate.
    + apply many_loop_inv in Hres. destruct Hres as (? & ? & ? & ? & _ & E & _).
      discriminate.
  - unfold optional_p in H. run_inv H. destruct res; discriminate.
  - now apply sep_by_loop_never_fails in H.
Qed.

(** When every branch fails, [choice] fails with [choice_message]. *)
Lemma choice_all_fail (A : Type) (n : nat) (i : string)
    (parsers : list (Parser A)) (msgs : list string) :
  Forall2 (fun q msg => q n i = Some (Failure msg)) parsers msgs ->
  choice parsers n i = Some (Failure (choice_message msgs)).
Proof.
  intros Hall. unfold choice. rewrite (choice_loop_all_fail "" Hall). simpl.
  destruct msgs as [|e msgs]; [reflexivity|].
  rewrite collected_errors_joined by discriminate.
  rewrite append_separator_not_empty. simpl.
  now rewrite trim_separator.
Qed.

(** For alternatives composed from the primitives and the combinators the
    joined message is never empty, and [choice] fails with it. *)
Lemma choice_all_fail_composed (A : Type) (n : nat) (i : string)
    (parsers : list (Parser A)) (msgs : list string) :
  (forall p, In p parsers -> Built p) -> parsers <> [] ->
  Forall2 (fun q msg => q n i = Some (Failure msg)) parsers msgs ->
  choice parsers n i = Some (Failure (joined msgs)).
Proof.
  intros HB Hne Hall. rewrite (choice_all_fail Hall). unfold choice_message.
  destruct (empty (joined msgs)) eqn:E; [|reflexivity].
  apply empty_true in E. apply joined_empty in E.
  - subst msgs. inversion Hall as [|q ? ? ? Hq Hrest]; subst.
    exfalso. eapply (Built_failure_nonempty (HB q (or_introl eq_refl))); eauto.
  - intros ->. inversion Hall. subst. now destruct Hne.
Qed.

(** The original statement of the all-fail case of C3 does not hold for a
    single alternative that fails with the empty message: the messages join
    to [""], and [choice] reports "No alternatives matched". *)
Lemma choice_joined_counterexample :
  ~ (forall (parsers : list (Parser nat)) (msgs : list string) (n : nat)
            (i : string),
        parsers <> [] ->
        Forall2 (fun q msg => q n i = Some (Failure msg)) parsers msgs ->
        choice parsers n i = Some (Failure (joined msgs))).
Proof.
  intros H.
  specialize (H [fail_with nat ""] [""] 0 "x").
  assert (E : choice [fail_with nat ""] 0 "x" = Some (Failure (joined [""]))).
  { apply H; [discriminate|]. repeat constructor. }
  vm_compute in E. discriminate.
Qed.

(** C3, amended in the all-fail case.  [choice parsers] applies the parsers
    in list order to the same input and returns the first success, so that
    [choice [p1; p2]] is [p1] wherever [p1] succeeds.  When every parser
    fails, it fails with the branch messages joined by [" | "], unless that
    joined string is empty, which is the case of one alternative failing with
    the empty message, where as for the empty list it fails with
    "No alternatives matched". *)
Theorem choice_first_success_or_joined_errors (A : Type) (n : nat) (i : string) :
  (forall (before : list (Parser A)) p after ps,
      (forall q, In q before -> exists msg, q n i = Some (Failure msg)) ->
      p n i = Some (Success ps) ->
      choice (before ++ p :: after) n i = Some (Success ps)) /\
  (forall (p1 p2 : Parser A) ps,
      p1 n i = Some (Success ps) -> choice [p1; p2] n i = p1 n i) /\
  (forall (parsers : list (Parser A)) msgs,
      Forall2 (fun q msg => q n i = Some (Failure msg)) parsers msgs ->
      choice parsers n i = Some (Failure (choice_message msgs))
      /\ (parsers <> [] -> msgs <> [""] -> choice_message msgs = joined msgs)
      /\ (msgs = [""] -> choice_message msgs = "No alternatives matched")) /\
  choice (@nil (Parser A)) n i = Some (Failure "No alternatives matched").
Proof.
  split; [|split; [|split]].
  - intros before p after ps Hfail Hp. unfold choice.
    now apply choice_loop_first_success.
  - intros p1 p2 ps H. unfold choice. simpl. now rewrite H.
  - intros parsers msgs Hall. split; [|split].
    + now apply choice_all_fail.
    + intros Hp Hm. unfold choice_message.
      destruct (empty (joined msgs)) eqn:E; [|reflexivity].
      apply empty_true in E. apply joined_empty in E; [contradiction|].
      intros ->. inversion Hall. subst. now destruct Hp.
    + intros ->. reflexivity.
  - reflexivity.
Qed.

(** The statement above at [choice [char_p "a"; digit]]: on ["7"] the second
    alternative succeeds after the first failed, on ["x"] both fail. *)
Lemma choice_first_success_or_joined_errors_witness :
  choice [char_p "a"%char; digit] 0 "7" = Some (Success (mkSuccess "7"%char ""))
  /\ choice [char_p "a"%char; digit] 0 "x"
     = Some (Failure "Expected 'a', found 'x' | Expected digit, found 'x'").
Proof.
  split.
  - apply (proj1 (choice_first_success_or_joined_errors ascii 0 "7")
             [char_p "a"%char] digit []).
    + intros q [<-|[]]. eexists. reflexivity.
    + reflexivity.
  - apply (proj1 (proj1 (proj2 (proj2
             (choice_first_success_or_joined_errors ascii 0 "x")))
             [char_p "a"%char; digit]
             ["Expected 'a', found 'x'"; "Expected digit, found 'x'"]
             ltac:(repeat constructor))).
Defined.

(** ** [integer_p] *)

Section Integer.

Open Scope Z_scope.

Lemma wrap_int_small (z : Z) :
  -2147483648 <= z <= INT_MAX -> wrap_int z = z.
Proof.
  unfold wrap_int, INT_MAX. intros Hz.
  rewrite Z.mod_small by lia. lia.
Qed.

Lemma digit_value_range (c : ascii) :
  isdigit c = true -> 0 <= digit_value c <= 9.
Proof.
  unfold isdigit, digit_value. intros H.
  apply andb_true_iff in H. destruct H as [H1 H2].
  apply Nat.leb_le in H1, H2. lia.
Qed.

Lemma decimal_value_snoc (ds : list ascii) (c : ascii) :
  decimal_value (ds ++ [c]) = decimal_value ds * 10 + digit_value c.
Proof. unfold decimal_value. now rewrite fold_left_app. Qed.

Lemma digits_to_int_snoc (ds : list ascii) (c : ascii) :
  digits_to_int (ds ++ [c])
  = wrap_int (wrap_int (digits_to_int ds * 10) + digit_value c).
Proof. unfold digits_to_int. now rewrite fold_left_app. Qed.

Lemma decimal_value_nonneg (ds : list ascii) :
  Forall (fun c => isdigit c = true) ds -> 0 <= decimal_value ds.
Proof.
  induction ds as [|c ds IH] using rev_ind; intros Hd.
  - unfold decimal_value. simpl. lia.
  - apply Forall_app in Hd. destruct Hd as [Hds Hc].
    inversion Hc as [|? ? Hc' _]; subst.
    rewrite decimal_value_snoc.
    pose proof (digit_value_range _ Hc'). specialize (IH Hds). lia.
Qed.

(** Without overflow the fold in [int] arithmetic is the decimal value. *)
Lemma digits_to_int_exact (ds : list ascii) :
  Forall (fun c => isdigit c = true) ds ->
  decimal_value ds <= INT_MAX ->
  digits_to_int ds = decimal_value ds.
Proof.
  induction ds as [|c ds IH] using rev_ind; intros Hd Hmax.
  - reflexivity.
  - apply Forall_app in Hd. destruct Hd as [Hds Hc].
    inversion Hc as [|? ? Hc' _]; subst.
    rewrite decimal_value_snoc in Hmax.
    pose proof (digit_value_range _ Hc') as Hr.
    pose proof (decimal_value_nonneg Hds) as H0.
    rewrite digits_to_int_snoc, decimal_value_snoc, IH by (assumption || lia).
    unfold INT_MAX in *.
    rewrite (wrap_int_small (z := decimal_value ds * 10)) by (unfold INT_MAX; lia).
    apply wrap_int_small. unfold INT_MAX. lia.
Qed.

End Integer.

(** The loop of [many digit] walks over a run of digits. *)
Lemma many_rounds_digits (n : nat) (rest : string) :
  forall (ds results : list ascii),
    Forall (fun c => isdigit c = true) ds ->
    many_rounds digit n (List.length ds) results
      (string_of_list_ascii ds ++ rest)
    = Some ((results ++ ds)%list, rest).
Proof.
  induction ds as [|c ds IH]; intros results Hd; simpl.
  - now rewrite app_nil_r.
  - inversion Hd as [|? ? Hc Hds]; subst.
    unfold digit at 1, make_parser. rewrite Hc.
    change (value (mkSuccess c (string_of_list_ascii ds ++ rest))) with c.
    change (remaining (mkSuccess c (string_of_list_ascii ds ++ rest)))
      with (string_of_list_ascii ds ++ rest).
    rewrite IH by assumption. now rewrite <- app_assoc.
Qed.

Lemma digit_fails_after_run (n : nat) (rest : string) :
  no_leading_digit rest = true -> exists msg, digit n rest = Some (Failure msg).
Proof.
  unfold digit, make_parser. destruct rest as [|c rest]; simpl; intros H.
  - eauto.
  - apply negb_true_iff in H. rewrite H. eauto.
Qed.

(** The reading of C7 in which the value is always non-negative does not
    hold: on ["2147483648"] the fold leaves the range of [int] and the value
    is negative. *)
Lemma integer_p_nonneg_counterexample :
  ~ (forall (ds : list ascii) (rest : string) (n : nat),
        ds <> [] -> Forall (fun c => isdigit c = true) ds ->
        no_leading_digit rest = true -> List.length ds < n ->
        exists v, integer_p n (string_of_list_ascii ds ++ rest)
                  = Some (Success (mkSuccess v rest)) /\ (0 <= v)%Z).
Proof.
  intros H.
  destruct (H (list_ascii_of_string "2147483648") "" 11) as (v & Hv & Hpos).
  - discriminate.
  - repeat constructor.
  - reflexivity.
  - simpl. lia.
  - vm_compute in Hv. injection Hv as <-. lia.
Qed.

(** C7, amended on the sign.  On every input that begins with one or more
    decimal digits [integer_p] succeeds, consumes exactly the maximal leading
    run of digits, and its value is the left-to-right fold
    [value = value * 10 + digitValue] over those digits in the wrapping
    arithmetic of a 32-bit [int]; that value is the non-negative decimal
    value of the run whenever this is at most [INT_MAX].  On ["123abc"] the
    value is 123 and the remainder ["abc"]. *)
Theorem integer_p_decimal_fold :
  (forall (ds : list ascii) (rest : string) (n : nat),
      ds <> [] -> Forall (fun c => isdigit c = true) ds ->
      no_leading_digit rest = true -> List.length ds < n ->
      integer_p n (string_of_list_ascii ds ++ rest)
      = Some (Success (mkSuccess (digits_to_int ds) rest))
      /\ ((decimal_value ds <= INT_MAX)%Z ->
          digits_to_int ds = decimal_value ds /\ (0 <= digits_to_int ds)%Z)) /\
  (forall n, 4 <= n ->
      integer_p n "123abc" = Some (Success (mkSuccess 123%Z "abc"))).
Proof.
  split.
  - intros ds rest n Hne Hd Hrest Hn. split.
    + destruct (digit_fails_after_run n rest Hrest) as [msg Hfail].
      pose proof (@many_rounds_digits n rest ds [] Hd) as Hr.
      pose proof (@many_loop_rounds _ digit n _ n _ _ _ _ _ Hr Hfail Hn) as Hm.
      unfold integer_p, map, many1, many. rewrite Hm. simpl.
      destruct ds; [now destruct Hne | reflexivity].
    + intros Hmax. rewrite (digits_to_int_exact Hd Hmax).
      split; [reflexivity | now apply decimal_value_nonneg].
  - intros n Hn.
    apply (@Built_from_budget _ integer_p 4 "123abc" _ Built_integer_p);
      [reflexivity | assumption].
Qed.

(** The statement above at the digits ["4"; "2"] followed by ["+1"]. *)
Lemma integer_p_decimal_fold_witness :
  integer_p 3 "42+1" = Some (Success (mkSuccess 42%Z "+1")).
Proof.
  apply (proj1 (proj1 integer_p_decimal_fold ["4"%char; "2"%char] "+1" 3
                  ltac:(discriminate) ltac:(repeat constructor)
                  eq_refl ltac:(simpl; lia))).
Defined.

(** ** The loop of [sep_by] *)

Section SepBy.

Variables A B : Type.
Variable element : Parser A.
Variable separator : Parser B.

Lemma sep_by_loop_rounds (n j : nat) :
  forall k results rem acc rem',
    sep_rounds element separator n j results rem = Some (acc, rem') ->
    sep_by_loop element separator n (j + k) results rem
    = sep_by_loop element separator n k acc rem'.
Proof.
  induction j as [|j IH]; intros k results rem acc rem' H; simpl in *.
  - now injection H as <- <-.
  - destruct (element n rem) as [[ps_elem|e]|]; try discriminate. simpl.
    destruct (separator n (remaining ps_elem)) as [[ps_sep|e]|];
      try discriminate. simpl.
    now apply IH.
Qed.

Lemma sep_by_loop_dangling (n k : nat) (results : list A) (rem : string)
    (ps_elem : ParseSuccess A) (ps_sep : ParseSuccess B) (msg : string) :
  element n rem = Some (Success ps_elem) ->
  separator n (remaining ps_elem) = Some (Success ps_sep) ->
  element n (remaining ps_sep) = Some (Failure msg) ->
  sep_by_loop element separator n (S (S k)) results rem
  = Some (Success (mkSuccess (results ++ [value ps_elem])%list
                             (remaining ps_sep))).
Proof.
  intros He Hs Hfail. simpl. rewrite He. simpl. rewrite Hs. simpl.
  now rewrite Hfail.
Qed.

End SepBy.

(** C1: when, in the loop of [sep_by element separator], an element succeeds,
    the separator then succeeds and the next element fails, [sep_by] returns
    a success whose remainder is the one left by that separator: what the
    dangling separator consumed is not given back.  So
    [sep_by integer_p (skip_ws (char_p ","))] on ["10,20,"] succeeds with
    [[10; 20]] and the remainder [""]. *)
Theorem sep_by_dangling_separator (A B : Type) (element : Parser A)
    (separator : Parser B) :
  (forall n i j results rem ps_elem ps_sep msg,
      sep_rounds element separator n j [] i = Some (results, rem) ->
      element n rem = Some (Success ps_elem) ->
      separator n (remaining ps_elem) = Some (Success ps_sep) ->
      element n (remaining ps_sep) = Some (Failure msg) ->
      j + 2 <= n ->
      sep_by element separator n i
      = Some (Success (mkSuccess (results ++ [value ps_elem])%list
                                 (remaining ps_sep)))) /\
  (forall n, 3 <= n ->
      sep_by integer_p comma n "10,20,"
      = Some (Success (mkSuccess [10%Z; 20%Z] ""))).
Proof.
  split.
  - intros n i j results rem ps_elem ps_sep msg Hr He Hs Hfail Hn.
    unfold sep_by.
    replace n with (j + S (S (n - j - 2))) at 2 by lia.
    erewrite sep_by_loop_rounds by exact Hr.
    eapply sep_by_loop_dangling; eassumption.
  - intros n Hn.
    apply (@Built_from_budget _ (sep_by integer_p comma) 3 "10,20," _
             (Built_sep_by Built_integer_p Built_comma));
      [reflexivity | assumption].
Qed.

(** The statement above at [sep_by integer_p comma] on ["10, 20"]: the comma
    after 10 is consumed, the element then fails on the blank, and the
    remainder is [" 20"]. *)
Lemma sep_by_dangling_separator_witness :
  sep_by integer_p comma 3 "10, 20"
  = Some (Success (mkSuccess [10%Z] " 20")).
Proof.
  apply (proj1 (sep_by_dangling_separator integer_p comma) 3 "10, 20" 0 []
           "10, 20" (mkSuccess 10%Z ", 20") (mkSuccess ","%char " 20")
           "Expected at least one occurrence");
    [reflexivity | reflexivity | reflexivity | reflexivity | lia].
Defined.

(** ** Further properties of the primitives *)

Lemma substring_suffix (a b : string) :
  String.substring (String.length a) (String.length (a ++ b) - String.length a)
    (a ++ b) = b.
Proof.
  induction a as [|x a IH]; simpl.
  - now rewrite Nat.sub_0_r, substring_whole.
  - exact IH.
Qed.

Lemma substring_short (s : string) (k : nat) :
  String.length s <= k -> String.substring 0 k s = s.
Proof.
  revert k; induction s as [|c s IH]; intros k Hk; simpl in *.
  - now destruct k.
  - destruct k as [|k]; [lia|]. f_equal. apply IH. lia.
Qed.

Lemma string_p_on_prefix (expected rest : string) (n : nat) :
  string_p expected n (expected ++ rest)
  = Some (Success (mkSuccess expected rest)).
Proof.
  unfold string_p, make_parser, substr, substr_from.
  rewrite substring_prefix, String.eqb_refl, substring_suffix.
  replace (String.length expected <=? String.length (expected ++ rest))%nat
    with true; [reflexivity|].
  symmetry. apply Nat.leb_le. rewrite length_append. lia.
Qed.

(** [string_p expected] succeeds exactly on the inputs that start with
    [expected]: a success returns [expected] and splits the input into
    [expected] and the remainder, and every input [expected ++ rest] is
    accepted with the remainder [rest]. *)
Theorem string_p_accepts_prefix (expected : string) (n : nat) :
  (forall input ps,
      string_p expected n input = Some (Success ps) ->
      value ps = expected /\ input = expected ++ remaining ps) /\
  (forall rest,
      string_p expected n (expected ++ rest)
      = Some (Success (mkSuccess expected rest))).
Proof.
  split.
  - intros input ps H. unfold string_p, make_parser in H.
    destruct (String.length expected <=? String.length input)%nat eqn:Hlen;
      simpl in H; [|discriminate].
    destruct (String.eqb _ expected) eqn:Heq; [|discriminate].
    injection H as <-. simpl. split; [reflexivity|].
    apply Nat.leb_le in Hlen. apply String.eqb_eq in Heq.
    unfold substr in Heq. unfold substr_from.
    rewrite (substring_split input Hlen) at 1. now rewrite Heq.
  - intros rest. apply string_p_on_prefix.
Qed.

(** The statement above at [string_p "ab"] on ["abc"]. *)
Lemma string_p_accepts_prefix_witness :
  "ab" = "ab" /\ "abc" = "ab" ++ "c".
Proof.
  apply (proj1 (string_p_accepts_prefix "ab" 0) "abc" (mkSuccess "ab" "c")).
  reflexivity.
Defined.

(** When [string_p expected] fails, the input does not start with
    [expected], and the message quotes [expected] and the first
    [length expected] characters of the input, or all of it when it is
    shorter. *)
Theorem string_p_failure_message (expected input : string) (n : nat)
    (msg : string) :
  string_p expected n input = Some (Failure msg) ->
  (forall rest, input <> expected ++ rest) /\
  msg = "Expected " ++ dquote ++ expected ++ dquote ++ ", found " ++ dquote
          ++ substr input 0 (String.length expected) ++ dquote.
Proof.
  intros H. split.
  - intros rest ->.
    rewrite string_p_on_prefix in H.
    discriminate.
  - unfold string_p, make_parser in H.
    destruct (String.length expected <=? String.length input)%nat eqn:Hlen;
      simpl in H.
    + destruct (String.eqb _ expected); [discriminate|].
      now injection H as <-.
    + injection H as <-. apply Nat.leb_gt in Hlen.
      unfold substr. rewrite substring_short by lia. reflexivity.
Qed.

(** The statement above at [string_p "abc"] on ["ab"], shorter than the
    literal. *)
Lemma string_p_failure_message_witness :
  (forall rest, "ab" <> "abc" ++ rest) /\
  "Expected " ++ dquote ++ "abc" ++ dquote ++ ", found " ++ dquote ++ "ab"
    ++ dquote
  = "Expected " ++ dquote ++ "abc" ++ dquote ++ ", found " ++ dquote
      ++ substr "ab" 0 3 ++ dquote.
Proof.
  apply (@string_p_failure_message "abc" "ab" 0). reflexivity.
Defined.

(** ** How the combinators compose *)

(** Two [map]s fuse into one. *)
Theorem map_map (A B C : Type) (p : Parser A) (f : A -> B) (g : B -> C)
    (n : nat) (i : string) :
  map (map p f) g n i = map p (fun a => g (f a)) n i.
Proof.
  unfold map. destruct (p n i) as [[ps|e]|]; reflexivity.
Qed.

(** [bind] is associative. *)
Theorem bind_assoc (A B C : Type) (p : Parser A) (f : A -> Parser B)
    (g : B -> Parser C) (n : nat) (i : string) :
  bind (bind p f) g n i = bind p (fun a => bind (f a) g) n i.
Proof.
  unfold bind. destruct (p n i) as [[ps|e]|]; reflexivity.
Qed.

(** [sequence] is [bind] followed by a [map] that pairs the two values. *)
Theorem sequence_as_bind (A B : Type) (p1 : Parser A) (p2 : Parser B)
    (n : nat) (i : string) :
  sequence p1 p2 n i = bind p1 (fun a => map p2 (fun b => (a, b))) n i.
Proof.
  unfold sequence, bind, map.
  destruct (p1 n i) as [[ps1|e]|]; reflexivity.
Qed.

(** [map] commutes with [optional_p]: transforming the value inside or
    outside the option is the same parser. *)
Theorem optional_p_map (A B : Type) (p : Parser A) (f : A -> B) (n : nat)
    (i : string) :
  optional_p (map p f) n i = map (optional_p p) (option_map f) n i.
Proof.
  unfold optional_p, map. destruct (p n i) as [[ps|e]|]; reflexivity.
Qed.

(** ** Runs of one class of characters *)

Section ClassRuns.

Variable p : Parser ascii.
Variable test : ascii -> bool.
Hypothesis p_class : char_class p test.

Lemma class_success (n : nat) (c : ascii) (rest : string) :
  test c = true -> p n (String c rest) = Some (Success (mkSuccess c rest)).
Proof.
  intros Hc. pose proof (p_class n (String c rest)) as H.
  cbv beta iota in H. now rewrite Hc in H.
Qed.

Lemma class_failure (n : nat) (i : string) :
  no_leading test i = true -> exists msg, p n i = Some (Failure msg).
Proof.
  intros Hi. pose proof (p_class n i) as H. destruct i as [|c rest].
  - exact H.
  - simpl in Hi. apply negb_true_iff in Hi.
    cbv beta iota in H. now rewrite Hi in H.
Qed.

Lemma many_rounds_class (n : nat) (rest : string) :
  forall (cs results : list ascii),
    Forall (fun c => test c = true) cs ->
    many_rounds p n (List.length cs) results (string_of_list_ascii cs ++ rest)
    = Some ((results ++ cs)%list, rest).
Proof.
  induction cs as [|c cs IH]; intros results Hcs; simpl.
  - now rewrite app_nil_r.
  - inversion Hcs as [|? ? Hc Hrest]; subst.
    rewrite (class_success n _ Hc). simpl.
    rewrite IH by assumption. now rewrite <- app_assoc.
Qed.

Lemma many_class_run (n : nat) (cs : list ascii) (rest : string) :
  Forall (fun c => test c = true) cs ->
  no_leading test rest = true ->
  List.length cs < n ->
  many p n (string_of_list_ascii cs ++ rest)
  = Some (Success (mkSuccess cs rest)).
Proof.
  intros Hcs Hrest Hn.
  destruct (class_failure n rest Hrest) as [msg Hfail].
  unfold many.
  eapply many_loop_rounds; [|exact Hfail|exact Hn].
  exact (@many_rounds_class n rest cs [] Hcs).
Qed.

Lemma many1_class_run (n : nat) (cs : list ascii) (rest : string) :
  cs <> [] ->
  Forall (fun c => test c = true) cs ->
  no_leading test rest = true ->
  List.length cs < n ->
  many1 p n (string_of_list_ascii cs ++ rest)
  = Some (Success (mkSuccess cs rest)).
Proof.
  intros Hne Hcs Hrest Hn. unfold many1.
  rewrite many_class_run by assumption. simpl.
  destruct cs; [now destruct Hne | reflexivity].
Qed.

Lemma many1_class_fails (n : nat) (i : string) :
  no_leading test i = true -> 1 <= n ->
  many1 p n i = Some (Failure "Expected at least one occurrence").
Proof.
  intros Hi Hn. destruct (class_failure n i Hi) as [msg Hfail].
  unfold many1, many. destruct n as [|k]; [lia|]. simpl. now rewrite Hfail.
Qed.

End ClassRuns.

Lemma digit_class : char_class digit isdigit.
Proof.
  intros n [|c rest]; unfold digit, make_parser; [eexists; reflexivity|].
  destruct (isdigit c); [reflexivity | eexists; reflexivity].
Qed.

Lemma whitespace_char_class : char_class whitespace_char isspace.
Proof.
  intros n [|c rest]; unfold whitespace_char, make_parser;
    [eexists; reflexivity|].
  destruct (isspace c); [reflexivity | eexists; reflexivity].
Qed.

Lemma whitespace_run (n : nat) (ws : list ascii) (rest : string) :
  Forall (fun c => isspace c = true) ws ->
  no_leading isspace rest = true ->
  List.length ws < n ->
  whitespace n (string_of_list_ascii ws ++ rest)
  = Some (Success (mkSuccess ws rest)).
Proof. apply (many_class_run whitespace_char_class). Qed.

Lemma skip_ws_run (T : Type) (p : Parser T) (n : nat) (ws : list ascii)
    (rest : string) :
  Forall (fun c => isspace c = true) ws ->
  no_leading isspace rest = true ->
  List.length ws < n ->
  skip_ws p n (string_of_list_ascii ws ++ rest) = p n rest.
Proof.
  intros Hws Hrest Hn. unfold skip_ws, bind.
  now rewrite whitespace_run by assumption.
Qed.

(** [many] over a one-character class takes exactly the maximal leading run
    of the class: on a run [cs] followed by [rest] whose first character is
    not of the class, it returns the characters of [cs] and leaves [rest]. *)
Theorem many_takes_maximal_run (p : Parser ascii) (test : ascii -> bool)
    (n : nat) (cs : list ascii) (rest : string) :
  char_class p test ->
  Forall (fun c => test c = true) cs ->
  no_leading test rest = true ->
  List.length cs < n ->
  many p n (string_of_list_ascii cs ++ rest)
  = Some (Success (mkSuccess cs rest)).
Proof. intros Hp. now apply many_class_run. Qed.

(** The statement above at [many digit] on ["2024-01"]. *)
Lemma many_takes_maximal_run_witness :
  many digit 5 "2024-01"
  = Some (Success (mkSuccess (list_ascii_of_string "2024") "-01")).
Proof.
  apply (@many_takes_maximal_run digit isdigit 5
           (list_ascii_of_string "2024") "-01" digit_class).
  - repeat constructor.
  - reflexivity.
  - simpl. lia.
Defined.

(** [skip_ws p] discards the maximal leading run of whitespace and applies
    [p] to what follows; [whitespace] alone returns that run. *)
Theorem skip_ws_discards_leading_whitespace (T : Type) (p : Parser T)
    (n : nat) (ws : list ascii) (rest : string) :
  Forall (fun c => isspace c = true) ws ->
  no_leading isspace rest = true ->
  List.length ws < n ->
  whitespace n (string_of_list_ascii ws ++ rest)
  = Some (Success (mkSuccess ws rest))
  /\ skip_ws p n (string_of_list_ascii ws ++ rest) = p n rest.
Proof.
  intros Hws Hrest Hn. split.
  - now apply whitespace_run.
  - now apply skip_ws_run.
Qed.

(** The statement above at [skip_ws (string_p "let")] on two blanks and
    ["let x"]. *)
Lemma skip_ws_discards_leading_whitespace_witness :
  whitespace 3 "  let x"
  = Some (Success (mkSuccess [" "%char; " "%char] "let x"))
  /\ skip_ws (string_p "let") 3 "  let x" = string_p "let" 3 "let x".
Proof.
  apply (@skip_ws_discards_leading_whitespace string (string_p "let") 3
           [" "%char; " "%char] "let x").
  - repeat constructor.
  - reflexivity.
  - simpl. lia.
Defined.

(** ** Loops that cannot end *)

Lemma many_loop_never_failing (A : Type) (q : Parser A) (n : nat) :
  (forall i msg, q n i <> Some (Failure msg)) ->
  forall k results rem, many_loop q n k results rem = None.
Proof.
  intros Hq. induction k as [|k IH]; intros results rem; [reflexivity|].
  simpl. destruct (q n rem) as [[ps|e]|] eqn:E; simpl.
  - apply IH.
  - now destruct (Hq rem e).
  - reflexivity.
Qed.

(** [many q] returns only through a failure of [q]: when [q] cannot fail,
    [many q] returns within no budget.  So it is for [q] an [optional_p],
    a [many] or a [sep_by], whatever they wrap. *)
Theorem many_of_never_failing_runs_on (A B : Type) (p : Parser A)
    (separator : Parser B) (n : nat) (i : string) :
  (forall q : Parser A,
      (forall i' msg, q n i' <> Some (Failure msg)) -> many q n i = None) /\
  many (optional_p p) n i = None /\
  many (many p) n i = None /\
  many (sep_by p separator) n i = None.
Proof.
  split; [|split; [|split]].
  - intros q Hq. now apply many_loop_never_failing.
  - apply many_loop_never_failing. intros i' msg H.
    unfold optional_p in H. run_inv H. destruct res; discriminate.
  - apply many_loop_never_failing. intros i' msg H.
    apply many_loop_inv in H. destruct H as (? & ? & ? & ? & _ & E & _).
    discriminate.
  - apply many_loop_never_failing. intros i' msg.
    apply sep_by_loop_never_fails.
Qed.

(** The statement above at a parser made with [make_parser] that accepts
    everything without consuming. *)
Lemma many_of_never_failing_runs_on_witness :
  many (make_parser (fun input => Success (mkSuccess tt input))) 9 "abc" = None.
Proof.
  apply (proj1 (many_of_never_failing_runs_on
                  (make_parser (fun input => Success (mkSuccess tt input)))
                  digit 9 "abc")).
  intros i' msg. discriminate.
Defined.

(** ** The results of [sep_by] and [many1] *)

Lemma sep_by_loop_inv (A B : Type) (element : Parser A) (separator : Parser B)
    (n k : nat) :
  forall results rem res,
    sep_by_loop element separator n k results rem = Some res ->
    exists j acc rem',
      j < k /\
      sep_rounds element separator n j results rem = Some (acc, rem') /\
      ((exists msg,
           element n rem' = Some (Failure msg) /\
           res = Success (mkSuccess acc rem')) \/
       (exists ps_elem msg,
           element n rem' = Some (Success ps_elem) /\
           separator n (remaining ps_elem) = Some (Failure msg) /\
           res = Success (mkSuccess (acc ++ [value ps_elem])%list
                                    (remaining ps_elem)))).
Proof.
  induction k as [|k IH]; intros results rem res H; simpl in H;
    [discriminate|].
  run_inv H. destruct res0 as [ps_elem|e].
  - run_inv H. destruct res0 as [ps_sep|e].
    + apply IH in H. destruct H as (j & acc & rem' & Hj & Hr & Hend).
      exists (S j), acc, rem'. simpl. rewrite Hres, Hres0.
      repeat split; [lia | assumption | assumption].
    + injection H as <-. exists 0, results, rem.
      repeat split; [lia|]. right. exists ps_elem, e. auto.
  - injection H as <-. exists 0, results, rem.
    repeat split; [lia|]. left. exists e. auto.
Qed.

(** [sep_by] never fails, and every result it returns is reached after some
    number of full rounds (an element, then a separator) in one of two ways:
    the next element fails, and the remainder is the one left by the last
    separator (the input itself when no round was made); or the next element
    succeeds and the separator fails, and the remainder is the one left by
    that element. *)
Theorem sep_by_result_shape (A B : Type) (element : Parser A)
    (separator : Parser B) (n : nat) (i : string) :
  (forall msg, sep_by element separator n i <> Some (Failure msg)) /\
  (forall res,
      sep_by element separator n i = Some res ->
      exists j results rem,
        sep_rounds element separator n j [] i = Some (results, rem) /\
        ((exists msg,
             element n rem = Some (Failure msg) /\
             res = Success (mkSuccess results rem)) \/
         (exists ps_elem msg,
             element n rem = Some (Success ps_elem) /\
             separator n (remaining ps_elem) = Some (Failure msg) /\
             res = Success (mkSuccess (results ++ [value ps_elem])%list
                                      (remaining ps_elem))))) /\
  (forall msg,
      element n i = Some (Failure msg) -> 1 <= n ->
      sep_by element separator n i = Some (Success (mkSuccess [] i))) /\
  (forall ps_elem msg,
      element n i = Some (Success ps_elem) ->
      separator n (remaining ps_elem) = Some (Failure msg) -> 1 <= n ->
      sep_by element separator n i
      = Some (Success (mkSuccess [value ps_elem] (remaining ps_elem)))).
Proof.
  split; [|split; [|split]].
  - intros msg. apply sep_by_loop_never_fails.
  - intros res H. apply sep_by_loop_inv in H.
    destruct H as (j & acc & rem' & _ & Hr & Hend). eauto.
  - intros msg He Hn. unfold sep_by. destruct n as [|k]; [lia|].
    simpl. now rewrite He.
  - intros ps_elem msg He Hs Hn. unfold sep_by. destruct n as [|k]; [lia|].
    simpl. rewrite He. simpl. now rewrite Hs.
Qed.

(** The statement above at [sep_by digit (char_p ",")]: nothing to read
    on ["x"], and on ["7;"] the separator fails after the element. *)
Lemma sep_by_result_shape_witness :
  sep_by digit (char_p ","%char) 1 "x" = Some (Success (mkSuccess [] "x"))
  /\ sep_by digit (char_p ","%char) 1 "7;"
     = Some (Success (mkSuccess ["7"%char] ";")).
Proof.
  split.
  - apply (proj1 (proj2 (proj2
             (sep_by_result_shape digit (char_p ","%char) 1 "x")))
             "Expected digit, found 'x'"); [reflexivity | lia].
  - apply (proj2 (proj2 (proj2
             (sep_by_result_shape digit (char_p ","%char) 1 "7;")))
             (mkSuccess "7"%char ";") "Expected ',', found ';'");
      [reflexivity | reflexivity | lia].
Defined.

Lemma many1_failure_inv (A : Type) (p : Parser A) (n : nat) (i msg : string) :
  many1 p n i = Some (Failure msg) ->
  msg = "Expected at least one occurrence"
  /\ exists m, p n i = Some (Failure m).
Proof.
  intros H. unfold many1 in H. run_inv H. destruct res as [ps|e].
  - destruct (value ps) eqn:Ev; [|discriminate].
    injection H as <-. split; [reflexivity|].
    now apply (many_first_round _ _ _ Hres).
  - apply many_loop_inv in Hres.
    destruct Hres as (? & ? & ? & ? & _ & E & _). discriminate.
Qed.

(** [many1 p] fails with no other message than its own, and only when [p]
    fails at once; its successes are those of [many p] and never hold the
    empty sequence. *)
Theorem many1_only_own_failure (A : Type) (p : Parser A) (n : nat)
    (i : string) :
  (forall msg,
      many1 p n i = Some (Failure msg) ->
      msg = "Expected at least one occurrence"
      /\ exists m, p n i = Some (Failure m)) /\
  (forall ps,
      many1 p n i = Some (Success ps) ->
      value ps <> [] /\ many p n i = Some (Success ps)).
Proof.
  split.
  - intros msg H. now apply many1_failure_inv.
  - intros ps H. unfold many1 in H. run_inv H. destruct res as [ps0|e].
    + destruct (value ps0) eqn:Ev; [discriminate|].
      injection H as <-. split; [now rewrite Ev | assumption].
    + discriminate.
Qed.

(** The statement above at [many1 digit] on ["x1"]. *)
Lemma many1_only_own_failure_witness :
  "Expected at least one occurrence" = "Expected at least one occurrence"
  /\ exists m, digit 1 "x1" = Some (Failure m).
Proof.
  apply (proj1 (many1_only_own_failure digit 1 "x1")). reflexivity.
Defined.

(** No parser composed from the primitives and the combinators fails with
    the empty message; so when composed alternatives all fail, [choice]
    reports their messages joined by [" | "]. *)
Theorem composed_parsers_fail_with_a_message :
  (forall (T : Type) (p : Parser T) n i msg,
      Built p -> p n i = Some (Failure msg) -> msg <> "") /\
  (forall (T : Type) (parsers : list (Parser T)) msgs n i,
      (forall p, In p parsers -> Built p) -> parsers <> [] ->
      Forall2 (fun q msg => q n i = Some (Failure msg)) parsers msgs ->
      choice parsers n i = Some (Failure (joined msgs))).
Proof.
  split.
  - intros T p n i msg HB H. eapply Built_failure_nonempty; eassumption.
  - intros T parsers msgs n i HB Hne Hall. now apply choice_all_fail_composed.
Qed.

(** The statement above at [integer_p] on ["x"] and at
    [choice [integer_p; map digit digit_value]] on ["x"]. *)
Lemma composed_parsers_fail_with_a_message_witness :
  "Expected at least one occurrence" <> ""
  /\ choice [integer_p; map digit digit_value] 1 "x"
     = Some (Failure (joined ["Expected at least one occurrence";
                              "Expected digit, found 'x'"])).
Proof.
  split.
  - apply (proj1 composed_parsers_fail_with_a_message Z integer_p 1 "x").
    + apply Built_integer_p.
    + reflexivity.
  - apply (proj2 composed_parsers_fail_with_a_message Z
             [integer_p; map digit digit_value]).
    + intros p [<-|[<-|[]]];
        [apply Built_integer_p | apply Built_map, Built_digit].
    + discriminate.
    + repeat constructor.
Defined.

(** ** [integer_p] on runs, and the example of the header *)

Lemma integer_p_run (n : nat) (ds : list ascii) (rest : string) :
  ds <> [] ->
  Forall (fun c => isdigit c = true) ds ->
  no_leading isdigit rest = true ->
  List.length ds < n ->
  integer_p n (string_of_list_ascii ds ++ rest)
  = Some (Success (mkSuccess (digits_to_int ds) rest)).
Proof.
  intros Hne Hds Hrest Hn. unfold integer_p, map.
  now rewrite (many1_class_run digit_class) by assumption.
Qed.

Lemma integer_p_no_digit (n : nat) (i : string) :
  no_leading isdigit i = true -> 1 <= n ->
  integer_p n i = Some (Failure "Expected at least one occurrence").
Proof.
  intros Hi Hn. unfold integer_p, map.
  now rewrite (many1_class_fails digit_class) by assumption.
Qed.

Lemma isspace_not_digit (c : ascii) : isspace c = true -> isdigit c = false.
Proof.
  unfold isspace, isdigit. intros H.
  apply orb_true_iff in H. apply andb_false_iff.
  destruct H as [H|H].
  - apply Nat.eqb_eq in H. left. apply Nat.leb_gt. lia.
  - apply andb_true_iff in H. destruct H as [_ H].
    apply Nat.leb_le in H. left. apply Nat.leb_gt. lia.
Qed.

Lemma isdigit_not_space (c : ascii) : isdigit c = true -> isspace c = false.
Proof.
  intros H. destruct (isspace c) eqn:E; [|reflexivity].
  apply isspace_not_digit in E. congruence.
Qed.

(** A run of one class, followed by something that does not start in a
    second class, does not start in that second class when the classes are
    disjoint. *)
Lemma no_leading_run (test test' : ascii -> bool) (cs : list ascii)
    (rest : string) :
  (forall c, test' c = true -> test c = false) ->
  Forall (fun c => test' c = true) cs ->
  no_leading test rest = true ->
  no_leading test (string_of_list_ascii cs ++ rest) = true.
Proof.
  intros Hdisj Hcs Hrest. destruct cs as [|c cs]; [exact Hrest|].
  inversion Hcs as [|? ? Hc _]; subst. simpl.
  now rewrite (Hdisj c Hc).
Qed.

Lemma no_leading_nonempty_run (test test' : ascii -> bool) (cs : list ascii)
    (rest : string) :
  (forall c, test' c = true -> test c = false) ->
  cs <> [] ->
  Forall (fun c => test' c = true) cs ->
  no_leading test (string_of_list_ascii cs ++ rest) = true.
Proof.
  intros Hdisj Hne Hcs. destruct cs as [|c cs]; [now destruct Hne|].
  inversion Hcs as [|? ? Hc _]; subst. simpl.
  now rewrite (Hdisj c Hc).
Qed.

(** [integer_p] fails exactly on the inputs that do not begin with a digit
    (the empty input among them), and then always with the message of
    [many1]: the message of [digit] is dropped. *)
Theorem integer_p_fails_without_digit (n : nat) (i : string) :
  1 <= n ->
  (no_leading_digit i = true <->
   integer_p n i = Some (Failure "Expected at least one occurrence")) /\
  (forall msg,
      integer_p n i = Some (Failure msg) ->
      msg = "Expected at least one occurrence").
Proof.
  intros Hn.
  assert (Hfail : forall msg, integer_p n i = Some (Failure msg) ->
                    msg = "Expected at least one occurrence"
                    /\ no_leading_digit i = true).
  { intros msg H. unfold integer_p, map in H. run_inv H.
    destruct res as [ps|e]; [discriminate|]. injection H as <-.
    apply many1_failure_inv in Hres. destruct Hres as [-> [m Hm]].
    split; [reflexivity|].
    destruct i as [|c rest]; [reflexivity|]. simpl.
    unfold digit, make_parser in Hm.
    destruct (isdigit c); [discriminate | reflexivity]. }
  split; [split|].
  - intros Hi. now apply integer_p_no_digit.
  - intros H. now apply Hfail in H.
  - intros msg H. now apply Hfail in H.
Qed.

(** The statement above at the input [" 7"]: the blank is not skipped. *)
Lemma integer_p_fails_without_digit_witness :
  integer_p 1 " 7" = Some (Failure "Expected at least one occurrence").
Proof.
  apply (proj1 (proj1 (@integer_p_fails_without_digit 1 " 7" ltac:(lia)))).
  reflexivity.
Defined.

(** The operator and the right operand, after the left operand. *)
Lemma plus_p_operand (d2 ws1 ws2 : list ascii) (rest : string) (n : nat) :
  d2 <> [] ->
  Forall (fun c => isdigit c = true) d2 ->
  Forall (fun c => isspace c = true) ws1 ->
  Forall (fun c => isspace c = true) ws2 ->
  no_leading isdigit rest = true ->
  List.length d2 < n -> List.length ws1 < n -> List.length ws2 < n ->
  plus_p n (string_of_list_ascii ws1
              ++ String "+"%char
                   (string_of_list_ascii ws2 ++ string_of_list_ascii d2 ++ rest))
  = Some (Success (mkSuccess (digits_to_int d2) rest)).
Proof.
  intros Hne Hd2 Hw1 Hw2 Hrest Hb1 Hb2 Hb3. unfold plus_p, map, sequence.
  rewrite skip_ws_run by (assumption || reflexivity).
  unfold char_p at 1, make_parser. simpl.
  rewrite skip_ws_run; try assumption.
  - now rewrite integer_p_run by assumption.
  - apply no_leading_nonempty_run with (test' := isdigit);
      [apply isdigit_not_space | assumption..].
Qed.

Lemma plus_p_no_operand (ws1 ws2 : list ascii) (rest : string) (n : nat) :
  Forall (fun c => isspace c = true) ws1 ->
  Forall (fun c => isspace c = true) ws2 ->
  no_leading isdigit rest = true -> no_leading isspace rest = true ->
  List.length ws1 < n -> List.length ws2 < n ->
  plus_p n (string_of_list_ascii ws1
              ++ String "+"%char (string_of_list_ascii ws2 ++ rest))
  = Some (Failure "Expected at least one occurrence").
Proof.
  intros Hw1 Hw2 Hdigit Hspace Hb1 Hb2. unfold plus_p, map, sequence.
  rewrite skip_ws_run by (assumption || reflexivity).
  unfold char_p at 1, make_parser. simpl.
  rewrite skip_ws_run by assumption.
  rewrite integer_p_no_digit; [reflexivity | assumption | lia].
Qed.

Lemma plus_p_no_operator (ws1 : list ascii) (rest : string) (n : nat) :
  Forall (fun c => isspace c = true) ws1 ->
  no_leading isspace rest = true ->
  no_leading (fun c => Ascii.eqb c "+"%char) rest = true ->
  List.length ws1 < n ->
  plus_p n (string_of_list_ascii ws1 ++ rest)
  = Some (Failure ("Expected '+', found '" ++ found_char rest ++ "'")).
Proof.
  intros Hw1 Hspace Hplus Hb1. unfold plus_p, map, sequence.
  rewrite skip_ws_run by assumption.
  unfold char_p, make_parser. destruct rest as [|c r]; [reflexivity|].
  simpl in Hplus. apply negb_true_iff in Hplus. simpl. now rewrite Hplus.
Qed.

(** [expr_p] of the example: on a run of digits, optional whitespace, ['+'],
    optional whitespace and a second run of digits, it succeeds with the sum
    of the two values in [int] arithmetic and leaves what follows the second
    run. *)
Theorem expr_p_adds (d1 d2 ws1 ws2 : list ascii) (rest : string) (n : nat) :
  d1 <> [] -> d2 <> [] ->
  Forall (fun c => isdigit c = true) d1 ->
  Forall (fun c => isdigit c = true) d2 ->
  Forall (fun c => isspace c = true) ws1 ->
  Forall (fun c => isspace c = true) ws2 ->
  no_leading isdigit rest = true ->
  List.length d1 < n -> List.length d2 < n ->
  List.length ws1 < n -> List.length ws2 < n ->
  expr_p n (string_of_list_ascii d1 ++ string_of_list_ascii ws1
              ++ String "+"%char
                   (string_of_list_ascii ws2 ++ string_of_list_ascii d2 ++ rest))
  = Some (Success (mkSuccess
                     (wrap_int (digits_to_int d1 + digits_to_int d2)) rest)).
Proof.
  intros Hn1 Hn2 Hd1 Hd2 Hw1 Hw2 Hrest Hb1 Hb2 Hb3 Hb4.
  unfold expr_p, sequence.
  rewrite integer_p_run; try assumption.
  - simpl. now rewrite plus_p_operand by assumption.
  - apply no_leading_run with (test' := isspace);
      [apply isspace_not_digit | assumption | reflexivity].
Qed.

(** The statement above at ["12 +  30;"]. *)
Lemma expr_p_adds_witness :
  expr_p 3 "12 +  30;" = Some (Success (mkSuccess 42%Z ";")).
Proof.
  apply (@expr_p_adds ["1"; "2"]%char ["3"; "0"]%char [" "]%char
           [" "; " "]%char ";" 3);
    try discriminate; try (repeat constructor); simpl; lia.
Defined.

(** [expr_p] rejects every input that does not begin with a digit, leading
    whitespace included, and an input whose right operand is missing, both
    with the message of [many1]; a missing ['+'] is reported with the
    message of [char_p]. *)
Theorem expr_p_rejects (n : nat) :
  (forall i,
      1 <= n -> no_leading isdigit i = true ->
      expr_p n i = Some (Failure "Expected at least one occurrence")) /\
  (forall d1 ws1 ws2 rest,
      d1 <> [] -> Forall (fun c => isdigit c = true) d1 ->
      Forall (fun c => isspace c = true) ws1 ->
      Forall (fun c => isspace c = true) ws2 ->
      no_leading isdigit rest = true -> no_leading isspace rest = true ->
      List.length d1 < n -> List.length ws1 < n -> List.length ws2 < n ->
      expr_p n (string_of_list_ascii d1 ++ string_of_list_ascii ws1
                  ++ String "+"%char (string_of_list_ascii ws2 ++ rest))
      = Some (Failure "Expected at least one occurrence")) /\
  (forall d1 ws1 rest,
      d1 <> [] -> Forall (fun c => isdigit c = true) d1 ->
      Forall (fun c => isspace c = true) ws1 ->
      no_leading isdigit rest = true -> no_leading isspace rest = true ->
      no_leading (fun c => Ascii.eqb c "+"%char) rest = true ->
      List.length d1 < n -> List.length ws1 < n ->
      expr_p n (string_of_list_ascii d1 ++ string_of_list_ascii ws1 ++ rest)
      = Some (Failure ("Expected '+', found '" ++ found_char rest ++ "'"))).
Proof.
  split; [|split].
  - intros i Hn Hi. unfold expr_p, sequence.
    now rewrite integer_p_no_digit by assumption.
  - intros d1 ws1 ws2 rest Hne Hd1 Hw1 Hw2 Hdigit Hspace Hb1 Hb2 Hb3.
    unfold expr_p, sequence. rewrite integer_p_run; try assumption.
    + simpl. now rewrite plus_p_no_operand by assumption.
    + apply no_leading_run with (test' := isspace);
        [apply isspace_not_digit | assumption | reflexivity].
  - intros d1 ws1 rest Hne Hd1 Hw1 Hdigit Hspace Hplus Hb1 Hb2.
    unfold expr_p, sequence. rewrite integer_p_run; try assumption.
    + simpl. now rewrite plus_p_no_operator by assumption.
    + apply no_leading_run with (test' := isspace);
        [apply isspace_not_digit | assumption | assumption].
Qed.

(** The statement above at the inputs of the example: ["  789 +  10 "]
    starts with blanks and ["42+"] has no right operand. *)
Lemma expr_p_rejects_witness :
  expr_p 3 "  789 +  10 " = Some (Failure "Expected at least one occurrence")
  /\ expr_p 3 "42+" = Some (Failure "Expected at least one occurrence")
  /\ expr_p 3 "42 x"
     = Some (Failure ("Expected '+', found '" ++ found_char "x" ++ "'")).
Proof.
  split; [|split].
  - apply (proj1 (expr_p_rejects 3)); [lia | reflexivity].
  - apply (proj1 (proj2 (expr_p_rejects 3)) ["4"; "2"]%char [] [] "");
      try discriminate; try (repeat constructor); simpl; lia.
  - apply (proj2 (proj2 (expr_p_rejects 3)) ["4"; "2"]%char [" "]%char "x");
      try discriminate; try (repeat constructor); simpl; lia.
Defined.

(** [int_list] of the example, [sep_by integer_p (skip_ws (char_p ","))]:
    whitespace is accepted before a comma, not after it.  A comma that is not
    directly followed by a digit ends the list, and that comma is consumed:
    the result holds the integers read so far and the remainder starts after
    the comma. *)
Theorem int_list_ends_after_comma (ds ws : list ascii) (rest : string)
    (n : nat) :
  ds <> [] ->
  Forall (fun c => isdigit c = true) ds ->
  Forall (fun c => isspace c = true) ws ->
  no_leading isdigit rest = true ->
  List.length ds < n -> List.length ws < n -> 2 <= n ->
  int_list n (string_of_list_ascii ds ++ string_of_list_ascii ws
                ++ String ","%char rest)
  = Some (Success (mkSuccess [digits_to_int ds] rest)).
Proof.
  intros Hne Hds Hws Hrest Hb1 Hb2 Hn. unfold int_list, sep_by.
  destruct n as [|[|k]]; [lia..|].
  apply sep_by_loop_dangling
    with (ps_elem := mkSuccess (digits_to_int ds)
                       (string_of_list_ascii ws ++ String ","%char rest))
         (ps_sep := mkSuccess ","%char rest)
         (msg := "Expected at least one occurrence").
  - apply integer_p_run; try assumption.
    apply no_leading_run with (test' := isspace);
      [apply isspace_not_digit | assumption | reflexivity].
  - simpl. unfold comma. now rewrite skip_ws_run by (assumption || reflexivity).
  - simpl. apply integer_p_no_digit; [assumption | lia].
Qed.

(** The statement above at the input of the example, ["10, 20, 30,40"]:
    the list ends after its first element. *)
Lemma int_list_ends_after_comma_witness :
  int_list 3 "10, 20, 30,40"
  = Some (Success (mkSuccess [10%Z] " 20, 30,40")).
Proof.
  apply (@int_list_ends_after_comma ["1"; "0"]%char [] " 20, 30,40" 3);
    try discriminate; try (repeat constructor); simpl; lia.
Defined.

(** ** main.cpp: the tokenizer of [execute_line] *)

Lemma length_string_of_list_ascii (cs : list ascii) :
  String.length (string_of_list_ascii cs) = List.length cs.
Proof. induction cs as [|c cs IH]; simpl; [reflexivity | now rewrite IH]. Qed.

Lemma non_whitespace_char_class :
  char_class cbasic.non_whitespace_char (fun c => negb (isspace c)).
Proof.
  intros n [|c rest]; unfold cbasic.non_whitespace_char, make_parser;
    [eexists; reflexivity|].
  destruct (negb (isspace c)); [reflexivity | eexists; reflexivity].
Qed.

Lemma word_run (n : nat) (word : list ascii) (rest : string) :
  word <> [] ->
  Forall (fun c => isspace c = false) word ->
  no_leading (fun c => negb (isspace c)) rest = true ->
  List.length word < n ->
  map cbasic.word_parser string_of_list_ascii n
    (string_of_list_ascii word ++ rest)
  = Some (Success (mkSuccess (string_of_list_ascii word) rest)).
Proof.
  intros Hne Hword Hrest Hn. unfold map, cbasic.word_parser.
  rewrite (many1_class_run non_whitespace_char_class); try assumption.
  - reflexivity.
  - eapply Forall_impl; [|exact Hword]. intros c Hc. simpl. now rewrite Hc.
Qed.

Lemma word_fails (n : nat) (i : string) :
  no_leading (fun c => negb (isspace c)) i = true -> 1 <= n ->
  map cbasic.word_parser string_of_list_ascii n i
  = Some (Failure "Expected at least one occurrence").
Proof.
  intros Hi Hn. unfold map, cbasic.word_parser.
  now rewrite (many1_class_fails non_whitespace_char_class) by assumption.
Qed.

Lemma line_of_no_leading_space (tokens : list (list ascii * list ascii)) :
  cbasic.well_spaced tokens ->
  no_leading isspace (cbasic.line_of tokens) = true.
Proof.
  destruct tokens as [|[word gap] rest]; [reflexivity|].
  intros (Hne & Hword & _). simpl.
  destruct word as [|c word]; [now destruct Hne|].
  inversion Hword as [|? ? Hc _]; subst. simpl. now rewrite Hc.
Qed.

Lemma gap_no_leading_word (gap : list ascii)
    (rest : list (list ascii * list ascii)) :
  Forall (fun c => isspace c = true) gap ->
  (rest <> [] -> gap <> []) ->
  no_leading (fun c => negb (isspace c))
    (string_of_list_ascii gap ++ cbasic.line_of rest) = true.
Proof.
  intros Hgap Hlast. destruct gap as [|c gap].
  - destruct rest as [|t rest]; [reflexivity|].
    now destruct (Hlast ltac:(discriminate)).
  - inversion Hgap as [|? ? Hc _]; subst. simpl. now rewrite Hc.
Qed.

Lemma split_loop_tokens (n : nat) :
  forall (tokens : list (list ascii * list ascii)) (k : nat)
         (results : list string),
    cbasic.well_spaced tokens ->
    String.length (cbasic.line_of tokens) < n ->
    List.length tokens < k ->
    sep_by_loop (map cbasic.word_parser string_of_list_ascii) whitespace n k
      results (cbasic.line_of tokens)
    = Some (Success (mkSuccess
              (results ++ List.map (fun t => string_of_list_ascii (fst t)) tokens)%list
              "")).
Proof.
  induction tokens as [|[word gap] rest IH]; intros k results Hws Hlen Hk;
    (destruct k as [|k]; [simpl in Hk; lia|]).
  - simpl. rewrite word_fails; [|reflexivity|lia]. simpl.
    now rewrite app_nil_r.
  - destruct Hws as (Hne & Hword & Hgap & Hlast & Hrest).
    simpl in Hlen. rewrite !length_append, !length_string_of_list_ascii in Hlen.
    cbn [cbasic.line_of sep_by_loop].
    rewrite word_run; [|assumption|assumption| |lia].
    + cbn [run_then value remaining].
      rewrite whitespace_run;
        [|assumption|now apply line_of_no_leading_space|lia].
      cbn [run_then value remaining].
      rewrite IH; [|assumption|lia|simpl in Hk; lia].
      cbn [List.map fst]. now rewrite <- app_assoc.
    + now apply gap_no_leading_word.
Qed.

Lemma tokens_within_line (tokens : list (list ascii * list ascii)) :
  cbasic.well_spaced tokens ->
  List.length tokens <= String.length (cbasic.line_of tokens).
Proof.
  induction tokens as [|[word gap] rest IH]; [simpl; lia|].
  intros (Hne & _ & _ & _ & Hrest). specialize (IH Hrest). simpl.
  rewrite !length_append, !length_string_of_list_ascii.
  destruct word; [now destruct Hne | simpl; lia].
Qed.

(** The tokenizer of [execute_line], [sep_by] of words and [whitespace]:
    on a line made of words (non-empty runs of non-whitespace characters)
    separated by whitespace, with or without whitespace at the end, it
    returns the words in order and consumes the whole line. *)
Theorem split_parser_tokenizes (tokens : list (list ascii * list ascii))
    (n : nat) :
  cbasic.well_spaced tokens ->
  String.length (cbasic.line_of tokens) < n ->
  cbasic.split_parser n (cbasic.line_of tokens)
  = Some (Success (mkSuccess
            (List.map (fun t => string_of_list_ascii (fst t)) tokens) "")).
Proof.
  intros Hws Hlen. unfold cbasic.split_parser, sep_by.
  rewrite split_loop_tokens; [reflexivity | assumption | assumption |].
  pose proof (tokens_within_line tokens Hws). lia.
Qed.

(** The statement above at the line ["1 22  +"]. *)
Lemma split_parser_tokenizes_witness :
  cbasic.split_parser 8 "1 22  +"
  = Some (Success (mkSuccess ["1"; "22"; "+"] "")).
Proof.
  apply (@split_parser_tokenizes
           [(["1"]%char, [" "]%char);
            (["2"; "2"]%char, [" "; " "]%char);
            (["+"]%char, [])] 8).
  - cbn. repeat split; try discriminate; try (intros _; discriminate);
      try (intros H; now destruct H); repeat constructor.
  - cbn. lia.
Defined.

(** A one-character parser consumes one character at each success. *)
Lemma class_progress (p : Parser ascii) (test : ascii -> bool) (n : nat)
    (i : string) (ps : ParseSuccess ascii) :
  char_class p test ->
  p n i = Some (Success ps) ->
  String.length (remaining ps) < String.length i.
Proof.
  intros Hp H. pose proof (Hp n i) as Hc. destruct i as [|c rest].
  - destruct Hc as [msg Hc]. congruence.
  - cbv beta iota in Hc. destruct (test c).
    + rewrite Hc in H. injection H as <-. simpl. lia.
    + destruct Hc as [msg Hc]. congruence.
Qed.

(** ** When the loop of [sep_by] ends *)

Section SepByReturns.

Variables A B : Type.
Variable element : Parser A.
Variable separator : Parser B.
Variable n : nat.

Hypothesis element_returns :
  forall i, String.length i < n -> element n i <> None.
Hypothesis separator_returns :
  forall i, String.length i < n -> separator n i <> None.
Hypothesis element_progress :
  forall i ps, element n i = Some (Success ps) ->
               String.length (remaining ps) < String.length i.
Hypothesis separator_shrinks :
  forall i ps, separator n i = Some (Success ps) ->
               String.length (remaining ps) <= String.length i.

Lemma sep_by_loop_returns :
  forall k results rem,
    String.length rem < k -> String.length rem < n ->
    exists ps, sep_by_loop element separator n k results rem
               = Some (Success ps).
Proof using element_returns separator_returns element_progress
            separator_shrinks.
  induction k as [|k IH]; intros results rem Hk Hn; [lia|].
  simpl. destruct (element n rem) as [[ps_elem|e]|] eqn:Ee; simpl.
  - pose proof (element_progress Ee) as Hp.
    destruct (separator n (remaining ps_elem)) as [[ps_sep|e]|] eqn:Es; simpl.
    + pose proof (separator_shrinks Es) as Hs. apply IH; lia.
    + eauto.
    + exfalso. apply (@separator_returns (remaining ps_elem)); [lia | assumption].
  - eauto.
  - exfalso. now apply (@element_returns rem).
Qed.

End SepByReturns.

(** [sep_by] returns, and with a success, on every input shorter than the
    budget when both parsers return on such inputs, every success of the
    element consumes something and no success of the separator lengthens
    the remainder. *)
Theorem sep_by_returns_with_progress (A B : Type) (element : Parser A)
    (separator : Parser B) (n : nat) (i : string) :
  (forall i', String.length i' < n -> element n i' <> None) ->
  (forall i', String.length i' < n -> separator n i' <> None) ->
  (forall i' ps, element n i' = Some (Success ps) ->
                 String.length (remaining ps) < String.length i') ->
  (forall i' ps, separator n i' = Some (Success ps) ->
                 String.length (remaining ps) <= String.length i') ->
  String.length i < n ->
  exists ps, sep_by element separator n i = Some (Success ps).
Proof.
  intros He Hs Hp Hsh Hi. unfold sep_by.
  now apply sep_by_loop_returns.
Qed.

(** The statement above at [sep_by digit (char_p ",")] on ["1,2"]. *)
Lemma sep_by_returns_with_progress_witness :
  exists ps, sep_by digit (char_p ","%char) 4 "1,2" = Some (Success ps).
Proof.
  apply sep_by_returns_with_progress.
  - intros i' _. discriminate.
  - intros i' _. discriminate.
  - intros i' ps H. eapply class_progress; [apply digit_class | exact H].
  - intros i' ps H. apply is_suffix_length.
    eapply char_p_consumes, H.
  - simpl. lia.
Defined.

(** ** main.cpp: [execute_line] always gets its words *)

Lemma many_loop_progress (A : Type) (p : Parser A) (n : nat) :
  (forall i ps, p n i = Some (Success ps) ->
                String.length (remaining ps) < String.length i) ->
  forall k results rem ps,
    many_loop p n k results rem = Some (Success ps) ->
    String.length (remaining ps) + List.length (value ps)
    <= String.length rem + List.length results.
Proof.
  intros Hprog. induction k as [|k IH]; intros results rem ps H; simpl in H;
    [discriminate|].
  run_inv H. destruct res as [ps0|e].
  - apply IH in H. rewrite length_app in H. simpl in H.
    pose proof (Hprog _ _ Hres). lia.
  - injection H as <-. simpl. lia.
Qed.

Lemma class_returns (p : Parser ascii) (test : ascii -> bool) (n : nat)
    (i : string) :
  char_class p test -> p n i <> None.
Proof.
  intros Hp. pose proof (Hp n i) as Hc. destruct i as [|c rest].
  - destruct Hc as [msg Hc]. congruence.
  - cbv beta iota in Hc. destruct (test c).
    + congruence.
    + destruct Hc as [msg Hc]. congruence.
Qed.

Lemma many_class_returns (p : Parser ascii) (test : ascii -> bool) (n : nat)
    (i : string) :
  char_class p test -> String.length i < n ->
  exists ps, many p n i = Some (Success ps).
Proof.
  intros Hp Hi. unfold many. apply many_loop_returns; [| |exact Hi].
  - intros i'. eapply class_returns, Hp.
  - intros i' ps H. eapply class_progress; [exact Hp | exact H].
Qed.

Lemma word_returns (n : nat) (i : string) :
  String.length i < n ->
  map cbasic.word_parser string_of_list_ascii n i <> None.
Proof.
  intros Hi. unfold map, cbasic.word_parser, many1.
  destruct (@many_class_returns _ _ n i non_whitespace_char_class Hi)
    as [ps ->].
  simpl. destruct (value ps); discriminate.
Qed.

Lemma word_progress (n : nat) (i : string) (ps : ParseSuccess string) :
  map cbasic.word_parser string_of_list_ascii n i = Some (Success ps) ->
  String.length (remaining ps) < String.length i.
Proof.
  intros H. unfold map in H. run_inv H.
  destruct res as [ps1|e]; [|discriminate]. injection H as <-. simpl.
  unfold cbasic.word_parser, many1 in Hres. run_inv Hres.
  destruct res as [ps0|e]; [|discriminate].
  destruct (value ps0) eqn:Ev; [discriminate|]. injection Hres as <-.
  apply many_loop_progress in Hres0.
  - rewrite Ev in Hres0. simpl in Hres0. lia.
  - intros i' ps' H'.
    eapply class_progress; [apply non_whitespace_char_class | exact H'].
Qed.

Lemma whitespace_returns (n : nat) (i : string) :
  String.length i < n -> whitespace n i <> None.
Proof.
  intros Hi.
  destruct (@many_class_returns _ _ n i whitespace_char_class Hi) as [ps H].
  unfold whitespace. congruence.
Qed.

Lemma whitespace_shrinks (n : nat) (i : string)
    (ps : ParseSuccess (list ascii)) :
  whitespace n i = Some (Success ps) ->
  String.length (remaining ps) <= String.length i.
Proof.
  intros H. apply is_suffix_length.
  eapply many_consumes; [apply whitespace_char_consumes | exact H].
Qed.

(** The tokenizer of [execute_line] never fails, and on every line shorter
    than the budget it returns a success: [execute_line] always runs its
    words, and its "Parse error" branch is never taken. *)
Theorem split_parser_always_succeeds (line : string)
    (environment : cbasic.Environment) (n : nat) (w : cbasic.World) :
  (forall msg, cbasic.split_parser n line <> Some (Failure msg)) /\
  (String.length line < n ->
   exists ps,
     cbasic.split_parser n line = Some (Success ps) /\
     cbasic.execute_line line environment n w
     = Some (cbasic.execute_words environment (value ps) w)).
Proof.
  split.
  - intros msg. apply sep_by_loop_never_fails.
  - intros Hlen.
    assert (H : exists ps, cbasic.split_parser n line = Some (Success ps)).
    { unfold cbasic.split_parser, sep_by. apply sep_by_loop_returns.
      - intros i. apply word_returns.
      - intros i. apply whitespace_returns.
      - intros i ps. apply word_progress.
      - intros i ps. apply whitespace_shrinks.
      - exact Hlen.
      - exact Hlen. }
    destruct H as [ps H]. exists ps. split; [exact H|].
    unfold cbasic.execute_line. now rewrite H.
Qed.

(** The statement above at the line ["dup  swap"]. *)
Lemma split_parser_always_succeeds_witness :
  exists ps,
    cbasic.split_parser 10 "dup  swap" = Some (Success ps) /\
    cbasic.execute_line "dup  swap" cbasic.no_commands 10 (cbasic.mkWorld [] "")
    = Some (cbasic.execute_words cbasic.no_commands (value ps)
              (cbasic.mkWorld [] "")).
Proof.
  apply (proj2 (split_parser_always_succeeds "dup  swap" cbasic.no_commands 10
                  (cbasic.mkWorld [] ""))).
  simpl. lia.
Defined.

(** A line that is empty or starts with whitespace yields no word at all:
    the tokenizer returns the empty sequence with the whole line left, and
    [execute_line] returns without touching the stack or writing anything,
    whatever follows the whitespace. *)
Theorem execute_line_ignores_indented_line (line : string)
    (environment : cbasic.Environment) (n : nat) (w : cbasic.World) :
  no_leading (fun c => negb (isspace c)) line = true -> 1 <= n ->
  cbasic.split_parser n line = Some (Success (mkSuccess [] line)) /\
  cbasic.execute_line line environment n w = Some (cbasic.Returned w).
Proof.
  intros Hline Hn.
  assert (H : cbasic.split_parser n line = Some (Success (mkSuccess [] line))).
  { unfold cbasic.split_parser, sep_by. destruct n as [|k]; [lia|].
    simpl. rewrite word_fails; [reflexivity | assumption | lia]. }
  split; [exact H|]. unfold cbasic.execute_line. now rewrite H.
Qed.

(** The statement above at the line [" 1 2 +"] and a stack holding 5. *)
Lemma execute_line_ignores_indented_line_witness :
  cbasic.split_parser 1 " 1 2 +" = Some (Success (mkSuccess [] " 1 2 +")) /\
  cbasic.execute_line " 1 2 +" cbasic.no_commands 1 (cbasic.mkWorld [5%Z] "")
  = Some (cbasic.Returned (cbasic.mkWorld [5%Z] "")).
Proof.
  apply execute_line_ignores_indented_line; [reflexivity | lia].
Defined.

(** ** main.cpp: the words of the stack machine *)

Lemma last_two (s : list Z) (a b : Z) :
  last (s ++ [a; b]) 0%Z = b
  /\ removelast (s ++ [a; b]) = (s ++ [a])%list
  /\ last (s ++ [a]) 0%Z = a
  /\ removelast (s ++ [a]) = s.
Proof.
  replace (s ++ [a; b])%list with ((s ++ [a]) ++ [b])%list
    by now rewrite <- app_assoc.
  now rewrite !last_last, !removelast_last.
Qed.

(** [add] and [subtract] replace the two values on top of the stack, [a]
    below [b], by [a + b] and [a - b] in [int] arithmetic and write nothing;
    on a stack of fewer than two values they leave the stack as it is and
    write their error line. *)
Theorem add_subtract_on_stack (w : cbasic.World) :
  (forall s a b,
      cbasic.data_stack w = (s ++ [a; b])%list ->
      cbasic.add w = cbasic.mkWorld (s ++ [wrap_int (a + b)]) (cbasic.cout w)
      /\ cbasic.subtract w
         = cbasic.mkWorld (s ++ [wrap_int (a - b)]) (cbasic.cout w)) /\
  (List.length (cbasic.data_stack w) < 2 ->
   cbasic.add w
   = cbasic.mkWorld (cbasic.data_stack w)
       (cbasic.cout w
          ++ cbasic.apply "Error: ADD requires at least two values on the stack."
               cbasic.RED ++ cbasic.endl)
   /\ cbasic.subtract w
      = cbasic.mkWorld (cbasic.data_stack w)
          (cbasic.cout w
             ++ cbasic.apply
                  "Error: SUBTRACT requires at least two values on the stack."
                  cbasic.RED ++ cbasic.endl)).
Proof.
  split.
  - intros s a b Hs. unfold cbasic.add, cbasic.subtract. rewrite Hs.
    destruct (last_two s a b) as (-> & -> & -> & ->).
    replace (List.length (s ++ [a; b])%list <? 2)%nat with false;
      [now split|].
    symmetry. apply Nat.ltb_ge. rewrite length_app. simpl. lia.
  - intros Hlen. unfold cbasic.add, cbasic.subtract, cbasic.print.
    apply Nat.ltb_lt in Hlen. now rewrite Hlen.
Qed.

(** The statement above at the stack [[7; 5; 3]] and at the stack [[7]]. *)
Lemma add_subtract_on_stack_witness :
  (cbasic.add (cbasic.mkWorld [7; 5; 3]%Z "") = cbasic.mkWorld [7; 8]%Z ""
   /\ cbasic.subtract (cbasic.mkWorld [7; 5; 3]%Z "")
      = cbasic.mkWorld [7; 2]%Z "")
  /\ cbasic.data_stack (cbasic.add (cbasic.mkWorld [7%Z] "")) = [7%Z].
Proof.
  split.
  - apply (proj1 (add_subtract_on_stack (cbasic.mkWorld [7; 5; 3]%Z ""))
             [7%Z] 5%Z 3%Z).
    reflexivity.
  - rewrite (proj1 (proj2 (add_subtract_on_stack (cbasic.mkWorld [7%Z] ""))
                      ltac:(simpl; lia))).
    reflexivity.
Defined.

Lemma print_items (items : list Z) :
  forall w,
    fold_left (fun acc item => cbasic.print (cbasic.to_string item ++ " ") acc)
              items w
    = cbasic.mkWorld (cbasic.data_stack w)
        (cbasic.cout w
           ++ fold_right (fun item text => cbasic.to_string item ++ " " ++ text)
                         "" items).
Proof.
  induction items as [|item items IH]; intros [stack out]; simpl.
  - now rewrite append_nil_r.
  - rewrite IH. simpl. now rewrite !append_assoc.
Qed.

(** [print_stack] leaves the stack as it is and writes one line: the green
    label, then the values from the bottom of the stack to its top, each
    followed by a blank. *)
Theorem print_stack_writes_bottom_to_top (w : cbasic.World) :
  cbasic.print_stack w
  = cbasic.mkWorld (cbasic.data_stack w)
      (cbasic.cout w ++ cbasic.apply "Stack: " cbasic.GREEN
         ++ fold_right (fun item text => cbasic.to_string item ++ " " ++ text)
                       "" (cbasic.data_stack w)
         ++ cbasic.endl).
Proof.
  unfold cbasic.print_stack. rewrite print_items.
  unfold cbasic.print. simpl. now rewrite !append_assoc.
Qed.

(** ** main.cpp: the dictionary of commands *)

(** [register_command_case_insensitive] makes a command known under three
    spellings, the name as given, all lower case and all upper case, and
    under no other: a spelling in mixed case that differs from these is
    left as it was. *)
Theorem register_three_spellings (m : cbasic.Environment) (name : string)
    (command : cbasic.Command) (k : string) :
  (k = name \/ k = cbasic.transform cbasic.tolower name
   \/ k = cbasic.transform cbasic.toupper name ->
   cbasic.register_command_case_insensitive m name command k = Some command) /\
  (k <> name -> k <> cbasic.transform cbasic.tolower name ->
   k <> cbasic.transform cbasic.toupper name ->
   cbasic.register_command_case_insensitive m name command k = m k).
Proof.
  unfold cbasic.register_command_case_insensitive, cbasic.assign.
  destruct (String.eqb_spec k (cbasic.transform cbasic.toupper name));
    destruct (String.eqb_spec k (cbasic.transform cbasic.tolower name));
    destruct (String.eqb_spec k name);
    split; intros; try reflexivity; intuition congruence.
Qed.

(** The statement above at the name ["Print"] registered in an empty
    dictionary: ["print"] is known, ["PrInT"] is not. *)
Lemma register_three_spellings_witness :
  cbasic.register_command_case_insensitive cbasic.no_commands "Print"
    cbasic.print_stack "print" = Some cbasic.print_stack
  /\ cbasic.register_command_case_insensitive cbasic.no_commands "Print"
       cbasic.print_stack "PrInT" = None.
Proof.
  split.
  - apply (proj1 (register_three_spellings cbasic.no_commands "Print"
                    cbasic.print_stack "print")).
    right. left. reflexivity.
  - apply (proj2 (register_three_spellings cbasic.no_commands "Print"
                    cbasic.print_stack "PrInT")); discriminate.
Defined.

(** [alias] gives a second name to a known command, leaving every other
    name as it was and writing nothing; for an unknown command it leaves
    the dictionary as it was and writes an error line. *)
Theorem alias_known_or_error (m : cbasic.Environment)
    (existing alias_name : string) (w : cbasic.World) :
  (forall command,
      m existing = Some command ->
      snd (cbasic.alias m existing alias_name w) = w /\
      fst (cbasic.alias m existing alias_name w) alias_name = Some command /\
      (forall k, k <> alias_name ->
                 fst (cbasic.alias m existing alias_name w) k = m k)) /\
  (m existing = None ->
   fst (cbasic.alias m existing alias_name w) = m /\
   cbasic.data_stack (snd (cbasic.alias m existing alias_name w))
   = cbasic.data_stack w /\
   cbasic.cout (snd (cbasic.alias m existing alias_name w))
   = cbasic.cout w
       ++ cbasic.apply ("Error: Unknown command '" ++ existing ++ "'")
            cbasic.RED ++ cbasic.endl).
Proof.
  unfold cbasic.alias. split.
  - intros command ->. simpl. unfold cbasic.assign.
    rewrite String.eqb_refl. repeat split.
    intros k Hk. apply String.eqb_neq in Hk. now rewrite Hk.
  - intros ->. simpl. auto.
Qed.

(** The statement above at the alias ["+"] of ["ADD"], and at an alias of
    the unknown ["MUL"]. *)
Lemma alias_known_or_error_witness :
  fst (cbasic.alias (cbasic.assign cbasic.no_commands "ADD" cbasic.add)
         "ADD" "+" (cbasic.mkWorld [] "")) "+" = Some cbasic.add
  /\ fst (cbasic.alias cbasic.no_commands "MUL" "*" (cbasic.mkWorld [] ""))
     = cbasic.no_commands.
Proof.
  split.
  - apply (proj1 (alias_known_or_error
                    (cbasic.assign cbasic.no_commands "ADD" cbasic.add)
                    "ADD" "+" (cbasic.mkWorld [] "")) cbasic.add eq_refl).
  - apply (proj2 (alias_known_or_error cbasic.no_commands "MUL" "*"
                    (cbasic.mkWorld [] "")) eq_refl).
Defined.

Lemma initial_environment_explicit (w : cbasic.World) :
  cbasic.initial_environment w
  = (cbasic.assign
       (cbasic.assign
          (cbasic.assign
             (cbasic.register_command_case_insensitive
                (cbasic.register_command_case_insensitive
                   (cbasic.register_command_case_insensitive
                      cbasic.no_commands "PRINT" cbasic.print_stack)
                   "ADD" cbasic.add)
                "SUB" cbasic.subtract)
             "P" cbasic.print_stack)
          "+" cbasic.add)
       "-" cbasic.subtract,
     w).
Proof. reflexivity. Qed.

(** The dictionary that [main] sets up knows exactly nine words: PRINT, ADD
    and SUB in upper and in lower case, and the aliases P, + and -, each
    bound to its function; setting it up writes nothing.  Any other
    spelling, ["Print"] or ["p"] for instance, is unknown. *)
Theorem initial_environment_words (w : cbasic.World) (k : string) :
  snd (cbasic.initial_environment w) = w /\
  (fst (cbasic.initial_environment w) k <> None <->
   In k ["PRINT"; "print"; "ADD"; "add"; "SUB"; "sub"; "P"; "+"; "-"]) /\
  (k = "PRINT" \/ k = "print" \/ k = "P" ->
   fst (cbasic.initial_environment w) k = Some cbasic.print_stack) /\
  (k = "ADD" \/ k = "add" \/ k = "+" ->
   fst (cbasic.initial_environment w) k = Some cbasic.add) /\
  (k = "SUB" \/ k = "sub" \/ k = "-" ->
   fst (cbasic.initial_environment w) k = Some cbasic.subtract).
Proof.
  rewrite initial_environment_explicit.
  split; [reflexivity|].
  assert (Hin : In k ["PRINT"; "print"; "ADD"; "add"; "SUB"; "sub"; "P"; "+"; "-"]
                \/ ~ In k ["PRINT"; "print"; "ADD"; "add"; "SUB"; "sub"; "P";
                           "+"; "-"]).
  { destruct (in_dec string_dec k
                ["PRINT"; "print"; "ADD"; "add"; "SUB"; "sub"; "P"; "+"; "-"]);
      auto. }
  destruct Hin as [Hin | Hout].
  - simpl in Hin.
    repeat (destruct Hin as [<- | Hin];
            [split; [|split; [|split]];
             [split; [intros _; simpl; tauto | discriminate]
             | intros [H|[H|H]]; (discriminate H || reflexivity) ..]|]).
    contradiction.
  - assert (Hnone : fst (cbasic.assign
       (cbasic.assign
          (cbasic.assign
             (cbasic.register_command_case_insensitive
                (cbasic.register_command_case_insensitive
                   (cbasic.register_command_case_insensitive
                      cbasic.no_commands "PRINT" cbasic.print_stack)
                   "ADD" cbasic.add)
                "SUB" cbasic.subtract)
             "P" cbasic.print_stack)
          "+" cbasic.add)
       "-" cbasic.subtract, w) k = None).
    { simpl fst.
      unfold cbasic.register_command_case_insensitive, cbasic.assign.
      simpl cbasic.transform.
      repeat match goal with
             | |- context [String.eqb k ?lit] =>
                 destruct (String.eqb_spec k lit) as [-> | _];
                 [exfalso; apply Hout; simpl; tauto|]
             end.
      reflexivity. }
    rewrite Hnone.
    split; [|split; [|split]].
    + split; [congruence | contradiction].
    + intros [-> | [-> | ->]]; exfalso; apply Hout; simpl; tauto.
    + intros [-> | [-> | ->]]; exfalso; apply Hout; simpl; tauto.
    + intros [-> | [-> | ->]]; exfalso; apply Hout; simpl; tauto.
Qed.

(** The statement above at the words ["sub"] and ["Print"]. *)
Lemma initial_environment_words_witness :
  fst (cbasic.initial_environment (cbasic.mkWorld [] "")) "sub"
  = Some cbasic.subtract
  /\ ~ fst (cbasic.initial_environment (cbasic.mkWorld [] "")) "Print" <> None.
Proof.
  split.
  - apply (proj2 (proj2 (proj2 (proj2
             (initial_environment_words (cbasic.mkWorld [] "") "sub"))))).
    right. left. reflexivity.
  - intros H.
    apply (proj1 (proj1 (proj2
             (initial_environment_words (cbasic.mkWorld [] "") "Print")))) in H.
    simpl in H.
    repeat (destruct H as [H|H]; [discriminate H|]). exact H.
Defined.

(** ** main.cpp: numbers and commands in [execute_line] *)

Lemma skip_spaces_none (s : string) :
  no_leading isspace s = true -> cbasic.skip_spaces s = s.
Proof.
  destruct s as [|c rest]; [reflexivity|]. simpl. intros H.
  apply negb_true_iff in H. now rewrite H.
Qed.

Lemma leading_digits_run (ds : list ascii) (rest : string) :
  Forall (fun c => isdigit c = true) ds ->
  no_leading isdigit rest = true ->
  cbasic.leading_digits (string_of_list_ascii ds ++ rest) = ds.
Proof.
  intros Hds Hrest. induction Hds as [|c ds Hc _ IH]; simpl.
  - destruct rest as [|c rest]; [reflexivity|]. simpl in *.
    apply negb_true_iff in Hrest. now rewrite Hrest.
  - now rewrite Hc, IH.
Qed.

Lemma read_sign_other (c : ascii) (rest : string) :
  c <> "+"%char -> c <> "-"%char ->
  cbasic.read_sign (String c rest) = (false, String c rest).
Proof.
  intros Hplus Hminus.
  destruct c as [[] [] [] [] [] [] [] []];
    solve [reflexivity | now destruct Hplus | now destruct Hminus].
Qed.

Lemma digit_not_sign (c : ascii) :
  isdigit c = true -> c <> "+"%char /\ c <> "-"%char.
Proof. intros H. split; intros ->; discriminate. Qed.

Lemma stoi_digits (ds : list ascii) (rest : string) :
  ds <> [] ->
  Forall (fun c => isdigit c = true) ds ->
  no_leading isdigit rest = true ->
  cbasic.stoi (string_of_list_ascii ds ++ rest)
  = if (decimal_value ds <=? INT_MAX)%Z
    then cbasic.StoiValue (decimal_value ds)
    else cbasic.OutOfRange.
Proof.
  intros Hne Hds Hrest. unfold cbasic.stoi.
  rewrite skip_spaces_none
    by (apply no_leading_nonempty_run with (test' := isdigit);
        [apply isdigit_not_space | assumption..]).
  pose proof (leading_digits_run rest Hds Hrest) as Hlead.
  destruct ds as [|c ds]; [now destruct Hne|].
  inversion Hds as [|? ? Hc _]; subst.
  destruct (digit_not_sign c Hc) as [Hplus Hminus].
  change (string_of_list_ascii (c :: ds) ++ rest)
    with (String c (string_of_list_ascii ds ++ rest)) in *.
  rewrite read_sign_other by assumption.
  cbn [snd fst]. rewrite Hlead.
  pose proof (decimal_value_nonneg Hds) as Hpos.
  replace (cbasic.INT_MIN <=? decimal_value (c :: ds))%Z with true;
    [reflexivity|].
  symmetry. apply Z.leb_le. unfold cbasic.INT_MIN. lia.
Qed.

Lemma stoi_no_number (word : string) :
  no_leading (fun c => isdigit c || isspace c
                       || Ascii.eqb c "+"%char || Ascii.eqb c "-"%char)
             word = true ->
  cbasic.stoi word = cbasic.InvalidArgument.
Proof.
  destruct word as [|c rest]; [reflexivity|]. simpl. intros H.
  apply negb_true_iff in H.
  apply orb_false_iff in H. destruct H as [H Hminus].
  apply orb_false_iff in H. destruct H as [H Hplus].
  apply orb_false_iff in H. destruct H as [Hdigit Hspace].
  apply Ascii.eqb_neq in Hplus, Hminus.
  unfold cbasic.stoi. simpl cbasic.skip_spaces. rewrite Hspace.
  rewrite read_sign_other by assumption. simpl. now rewrite Hdigit.
Qed.

(** How [execute_line] treats a word.  A word that begins with digits is a
    number, whatever follows the digits: its leading digits are pushed when
    their value fits an [int], and otherwise [std::stoi] throws
    [std::out_of_range], which nothing catches, so the run ends there with
    the words that follow left unexecuted.  A word that begins with neither
    a digit, a sign nor whitespace is looked up as a command, and an unknown
    one only writes an error line. *)
Theorem execute_words_dispatch (environment : cbasic.Environment)
    (words : list string) (w : cbasic.World) :
  (forall ds rest,
      ds <> [] -> Forall (fun c => isdigit c = true) ds ->
      no_leading isdigit rest = true ->
      cbasic.execute_words environment
        ((string_of_list_ascii ds ++ rest) :: words) w
      = if (decimal_value ds <=? INT_MAX)%Z
        then cbasic.execute_words environment words
               (cbasic.push (decimal_value ds) w)
        else cbasic.Terminated w) /\
  (forall word,
      no_leading (fun c => isdigit c || isspace c
                           || Ascii.eqb c "+"%char || Ascii.eqb c "-"%char)
                 word = true ->
      cbasic.execute_words environment (word :: words) w
      = cbasic.execute_words environment words
          (cbasic.execute_word word environment w)
      /\ (environment word = None ->
          cbasic.execute_word word environment w
          = cbasic.mkWorld (cbasic.data_stack w)
              (cbasic.cout w
                 ++ cbasic.apply ("Error: Unknown command '" ++ word ++ "'")
                      cbasic.RED ++ cbasic.endl))).
Proof.
  split.
  - intros ds rest Hne Hds Hrest. simpl.
    rewrite stoi_digits by assumption.
    now destruct (decimal_value ds <=? INT_MAX)%Z.
  - intros word Hword. split.
    + simpl. now rewrite stoi_no_number.
    + intros Hnone. unfold cbasic.execute_word. now rewrite Hnone.
Qed.

(** The statement above at the words ["12abc"] and ["99999999999"], and at
    the unknown command ["dup"]. *)
Lemma execute_words_dispatch_witness :
  cbasic.execute_words cbasic.no_commands ["12abc"] (cbasic.mkWorld [] "")
  = cbasic.Returned (cbasic.mkWorld [12%Z] "")
  /\ cbasic.execute_words cbasic.no_commands ["99999999999"; "1"]
       (cbasic.mkWorld [] "")
     = cbasic.Terminated (cbasic.mkWorld [] "")
  /\ cbasic.data_stack
       (cbasic.execute_word "dup" cbasic.no_commands (cbasic.mkWorld [4%Z] ""))
     = [4%Z].
Proof.
  split; [|split].
  - apply (proj1 (execute_words_dispatch cbasic.no_commands []
                    (cbasic.mkWorld [] ""))
             ["1"; "2"]%char "abc");
      [discriminate | repeat constructor | reflexivity].
  - apply (proj1 (execute_words_dispatch cbasic.no_commands ["1"]
                    (cbasic.mkWorld [] ""))
             (list_ascii_of_string "99999999999") "");
      [discriminate | repeat constructor | reflexivity].
  - rewrite (proj2 (proj2 (execute_words_dispatch cbasic.no_commands []
                             (cbasic.mkWorld [4%Z] ""))
                      "dup" eq_refl) eq_refl).
    reflexivity.
Defined.

Lemma add_top_two (s : list Z) (a b : Z) (out : string) :
  cbasic.add (cbasic.mkWorld (s ++ [a; b]) out)
  = cbasic.mkWorld (s ++ [wrap_int (a + b)]) out.
Proof.
  unfold cbasic.add. simpl.
  destruct (last_two s a b) as (-> & -> & -> & ->).
  replace (List.length (s ++ [a; b])%list <? 2)%nat with false;
    [reflexivity|].
  symmetry. apply Nat.ltb_ge. rewrite length_app. simpl. lia.
Qed.

Lemma digits_not_spaces (ds : list ascii) :
  Forall (fun c => isdigit c = true) ds ->
  Forall (fun c => isspace c = false) ds.
Proof.
  intros H. eapply Forall_impl; [|exact H].
  intros c Hc. now apply isdigit_not_space.
Qed.

(** End to end: with the dictionary of [main], the line "a b +" for two
    runs of digits whose values fit an [int] leaves the stack with their
    sum, in [int] arithmetic, pushed on top, and writes nothing. *)
Theorem execute_line_adds (d1 d2 : list ascii) (w w0 : cbasic.World)
    (n : nat) :
  d1 <> [] -> d2 <> [] ->
  Forall (fun c => isdigit c = true) d1 ->
  Forall (fun c => isdigit c = true) d2 ->
  (decimal_value d1 <= INT_MAX)%Z -> (decimal_value d2 <= INT_MAX)%Z ->
  List.length d1 + List.length d2 + 3 < n ->
  cbasic.execute_line
    (string_of_list_ascii d1 ++ " " ++ string_of_list_ascii d2 ++ " +")
    (fst (cbasic.initial_environment w0)) n w
  = Some (cbasic.Returned
            (cbasic.mkWorld
               (cbasic.data_stack w
                  ++ [wrap_int (decimal_value d1 + decimal_value d2)])
               (cbasic.cout w))).
Proof.
  intros Hn1 Hn2 Hd1 Hd2 Hv1 Hv2 Hn.
  set (tokens := [(d1, [" "%char]); (d2, [" "%char]); (["+"%char], [])]).
  change (string_of_list_ascii d1 ++ " " ++ string_of_list_ascii d2 ++ " +")
    with (cbasic.line_of tokens).
  assert (Hws : cbasic.well_spaced tokens).
  { simpl. repeat split; try assumption; try discriminate;
      try (now apply digits_not_spaces);
      try (intros _; discriminate); try (intros H; now destruct H);
      repeat constructor. }
  assert (Hlen : String.length (cbasic.line_of tokens) < n).
  { simpl. rewrite !length_append, !length_string_of_list_ascii. simpl.
    rewrite !length_append, !length_string_of_list_ascii. simpl. lia. }
  unfold cbasic.execute_line, cbasic.split_parser, sep_by.
  rewrite split_loop_tokens;
    [|assumption|assumption|pose proof (tokens_within_line tokens Hws); lia].
  cbn [run_then value List.map fst tokens app cbasic.execute_words].
  rewrite <- (append_nil_r (string_of_list_ascii d1)).
  rewrite stoi_digits by (assumption || reflexivity).
  apply Z.leb_le in Hv1. rewrite Hv1.
  rewrite <- (append_nil_r (string_of_list_ascii d2)).
  rewrite stoi_digits by (assumption || reflexivity).
  apply Z.leb_le in Hv2. rewrite Hv2.
  change (cbasic.stoi (string_of_list_ascii ["+"%char]))
    with cbasic.InvalidArgument.
  unfold cbasic.execute_word.
  rewrite initial_environment_explicit.
  change (fst _ (string_of_list_ascii ["+"%char])) with (Some cbasic.add).
  unfold cbasic.push. cbn [cbasic.data_stack cbasic.cout].
  rewrite <- app_assoc. apply f_equal. apply f_equal.
  apply add_top_two.
Qed.

(** The statement above at the line ["40 2 +"] on a stack holding 1. *)
Lemma execute_line_adds_witness :
  cbasic.execute_line "40 2 +"
    (fst (cbasic.initial_environment (cbasic.mkWorld [] ""))) 7
    (cbasic.mkWorld [1%Z] "")
  = Some (cbasic.Returned (cbasic.mkWorld [1%Z; 42%Z] "")).
Proof.
  apply (@execute_line_adds ["4"; "0"]%char ["2"]%char
           (cbasic.mkWorld [1%Z] "") (cbasic.mkWorld [] "") 7);
    try discriminate; try (repeat constructor); simpl; lia.
Defined.

End cnomlite.
